(** * react-19-demo: a shallow embedding of the demo application

    The development follows the source files of the repository:

    - [Runtime]: the part of the JavaScript host the sources rely on
      (promises, [setTimeout], the microtask queue, [Map]);
    - [SuspenseDemo]: src/demos/SuspenseDemo.tsx (fetch simulators and the
      two promise caches);
    - [ServerComponentsDemo]: src/demos/ServerComponentsDemo.tsx (the
      product fetch simulator and its singleton cache);
    - [ViewTransitionsDemo], [ActivityDemo], [App], [EntryServer], [Main]:
      the components and the two entry points.

    Identifiers of users are the integers the components generate
    (1, 2, 3, ...); they are modelled as [Z].  Times are milliseconds in [N].
    A promise is identified by the address it was allocated at, a [nat];
    two promises are the same object exactly when their addresses agree. *)

From stdpp Require Import gmap strings list pretty.
From Stdlib Require Import ZArith NArith Lia.

Set Warnings "-register-all".

(** ** A state monad over the JavaScript realm *)

Module Runtime.

Record User := mkUser
  { user_id : Z; user_name : string; user_email : string }.

Record Post := mkPost { post_id : Z; post_title : string }.

Record Product := mkProduct
  { product_id : Z; product_name : string; product_price : Z;
    product_serverOnly : string }.

(** The values promises of this program are resolved with. *)
Inductive Value :=
| VUndefined
| VUser (u : User)
| VPosts (ps : list Post)
| VServerData (products : list Product).

Inductive Settlement :=
| Pending
| Fulfilled (v : Value)
| Rejected (reason : Value).

(** Callbacks handed to the host.  The only callbacks the fetch layer
    creates call the [resolve] function of a promise. *)
Inductive Task := Resolve (p : nat) (v : Value).

Definition target (t : Task) : nat := match t with Resolve p _ => p end.

(** The realm: the clock, the promise heap, the reactions registered by
    [await], the microtask queue, the timer queue (sorted by deadline),
    and the module-level caches of the two demo modules. *)
Record World := mkWorld
  { now : N;
    next_promise : nat;
    promises : gmap nat Settlement;
    reactions : list (nat * Task);
    microtasks : list Task;
    timers : list (N * Task);
    userCache : gmap Z nat;
    postsCache : gmap Z nat;
    serverDataCache : option nat }.

Definition set_now (f : N → N) (w : World) : World :=
  mkWorld (f (now w)) (next_promise w) (promises w) (reactions w)
    (microtasks w) (timers w) (userCache w) (postsCache w)
    (serverDataCache w).
Definition set_next_promise (f : nat → nat) (w : World) : World :=
  mkWorld (now w) (f (next_promise w)) (promises w) (reactions w)
    (microtasks w) (timers w) (userCache w) (postsCache w)
    (serverDataCache w).
Definition set_promises
    (f : gmap nat Settlement → gmap nat Settlement) (w : World) : World :=
  mkWorld (now w) (next_promise w) (f (promises w)) (reactions w)
    (microtasks w) (timers w) (userCache w) (postsCache w)
    (serverDataCache w).
Definition set_reactions
    (f : list (nat * Task) → list (nat * Task)) (w : World) : World :=
  mkWorld (now w) (next_promise w) (promises w) (f (reactions w))
    (microtasks w) (timers w) (userCache w) (postsCache w)
    (serverDataCache w).
Definition set_microtasks (f : list Task → list Task) (w : World) : World :=
  mkWorld (now w) (next_promise w) (promises w) (reactions w)
    (f (microtasks w)) (timers w) (userCache w) (postsCache w)
    (serverDataCache w).
Definition set_timers
    (f : list (N * Task) → list (N * Task)) (w : World) : World :=
  mkWorld (now w) (next_promise w) (promises w) (reactions w)
    (microtasks w) (f (timers w)) (userCache w) (postsCache w)
    (serverDataCache w).
Definition set_userCache (f : gmap Z nat → gmap Z nat) (w : World) : World :=
  mkWorld (now w) (next_promise w) (promises w) (reactions w)
    (microtasks w) (timers w) (f (userCache w)) (postsCache w)
    (serverDataCache w).
Definition set_postsCache (f : gmap Z nat → gmap Z nat) (w : World) : World :=
  mkWorld (now w) (next_promise w) (promises w) (reactions w)
    (microtasks w) (timers w) (userCache w) (f (postsCache w))
    (serverDataCache w).
Definition set_serverDataCache
    (f : option nat → option nat) (w : World) : World :=
  mkWorld (now w) (next_promise w) (promises w) (reactions w)
    (microtasks w) (timers w) (userCache w) (postsCache w)
    (f (serverDataCache w)).

(** The realm when the modules have just been loaded: both [Map]s are
    empty, [serverDataCache] is [null], nothing is scheduled. *)
Definition initial : World :=
  mkWorld 0 0 ∅ [] [] [] ∅ ∅ None.

(** Computations that read and write the realm. *)
Definition M (A : Type) : Type := World → A * World.

#[global] Instance M_ret : MRet M := λ A x w, (x, w).
#[global] Instance M_bind : MBind M :=
  λ A B f m w, let '(x, w') := m w in f x w'.

Definition gets {A} (f : World → A) : M A := λ w, (f w, w).
Definition modify (f : World → World) : M unit := λ w, (tt, f w).

(** [new Promise(executor)]: allocates a pending promise; the executor
    receives its address (through which [resolve] is called). *)
Definition new_promise : M nat :=
  p ← gets next_promise;
  modify (set_promises <[p := Pending]>);;
  modify (set_next_promise S);;
  mret p.

(** The timer queue is kept in firing order: by deadline, and among
    equal deadlines by registration. *)
Fixpoint insert_timer (t : N * Task) (ts : list (N * Task))
  : list (N * Task) :=
  match ts with
  | [] => [t]
  | t' :: ts' =>
      if (t.1 <? t'.1)%N then t :: ts else t' :: insert_timer t ts'
  end.

(** [setTimeout(callback, delay)] *)
Definition setTimeout (callback : Task) (delay : N) : M unit :=
  modify (λ w, set_timers (insert_timer ((now w + delay)%N, callback)) w).

(** Continuation of an [async] function suspended by [await p]: it runs
    as a microtask once [p] is fulfilled. *)
Definition await (p : nat) (continuation : Task) : M unit :=
  s ← gets (λ w, promises w !! p);
  match s with
  | Some (Fulfilled _) => modify (set_microtasks (λ q, q ++ [continuation]))
  | _ => modify (set_reactions (λ r, r ++ [(p, continuation)]))
  end.

(** [resolve(v)] on promise [p]: a settled promise ignores it; a pending
    one is fulfilled and its reactions are queued as microtasks. *)
Definition fulfil (p : nat) (v : Value) (w : World) : World :=
  match promises w !! p with
  | Some Pending =>
      let mine := filter (λ r, r.1 = p) (reactions w) in
      let others := filter (λ r, r.1 ≠ p) (reactions w) in
      set_microtasks (λ q, q ++ (snd <$> mine))
        (set_reactions (λ _, others)
           (set_promises <[p := Fulfilled v]> w))
  | _ => w
  end.

Definition run_task (t : Task) (w : World) : World :=
  match t with Resolve p v => fulfil p v w end.

(** Microtask checkpoint: run queued microtasks until the queue is empty.
    Every microtask run consumes one queue entry and moves reactions to
    the queue, so [length microtasks + length reactions] steps suffice. *)
Fixpoint drain (fuel : nat) (w : World) : World :=
  match fuel with
  | O => w
  | S fuel' =>
      match microtasks w with
      | [] => w
      | t :: rest => drain fuel' (run_task t (set_microtasks (λ _, rest) w))
      end
  end.

Definition run_microtasks (w : World) : World :=
  drain (length (microtasks w) + length (reactions w)) w.

(** One turn of the event loop for a timer callback. *)
Definition macrotask (t : Task) (w : World) : World :=
  run_microtasks (run_task t w).

(** Let [dt] milliseconds pass: the timers that are due fire in queue
    order, each followed by a microtask checkpoint. *)
Definition fire (due : list (N * Task)) (w : World) : World :=
  foldl (λ w x, macrotask x.2 w) w due.

Definition advance (dt : N) (w : World) : World :=
  let t := (now w + dt)%N in
  let due := filter (λ x, (x.1 ≤ t)%N) (timers w) in
  let later := filter (λ x, ¬ (x.1 ≤ t)%N) (timers w) in
  fire due (set_now (λ _, t) (set_timers (λ _, later) w)).

End Runtime.

Import Runtime.

(** ** The part of React the sources rely on

    A JSX expression is a tree of type [VNode]: host elements with their
    attributes and event handlers, text, children that render nothing
    ([false], [null]), elements of function components (whose bodies React
    calls later), and the [Suspense], [Activity] and [StrictMode]
    boundaries.  [H] is the type of the closures a component attaches as
    event handlers. *)

Module React.

(** [interface Item] of ViewTransitionsDemo.tsx, a prop of [DetailView]. *)
Record Item := mkItem
  { item_id : Z; item_title : string; item_description : string;
    item_image : string }.

(** Elements of the function components of the repository, with the
    props that are data. *)
Inductive Element :=
| EApp
| ESuspenseDemo
| EActivityDemo
| EViewTransitionsDemo
| EServerComponentsDemo
| EUserCard (userPromise : option nat)
| EPostsList (postsPromise : option nat)
| ELoadingSpinner (label : string)
| EVideoPlayer (id : string)
| ECommentDraft
| EListView
| EDetailView (item : Item)
| EServerProductList
| EClientCounter (productName : string)
| EServerActionDemo.

Inductive Mode := visible | hidden.

Inductive VNode (H : Type) :=
| El (tag : string) (attrs : list (string * string))
     (handlers : list (string * H)) (children : list (VNode H))
| Text (s : string)
| Falsy
| Comp (e : Element)
| Suspense (fallback : list (VNode H)) (children : list (VNode H))
| Activity (mode : Mode) (children : list (VNode H))
| StrictMode (children : list (VNode H)).

Arguments El {H} tag attrs handlers children.
Arguments Text {H} s.
Arguments Falsy {H}.
Arguments Comp {H} e.
Arguments Suspense {H} fallback children.
Arguments Activity {H} mode children.
Arguments StrictMode {H} children.

(** [cond && node] *)
Definition when {H} (cond : bool) (node : VNode H) : VNode H :=
  if cond then node else Falsy.

Definition className (c : string) : string * string := ("className", c).

(** Forgetting the handlers: all that a server render looks at. *)
Fixpoint erase {H} (v : VNode H) : VNode unit :=
  match v with
  | El tag attrs _ children => El tag attrs [] (map erase children)
  | Text s => Text s
  | Falsy => Falsy
  | Comp e => Comp e
  | Suspense fallback children =>
      Suspense (map erase fallback) (map erase children)
  | Activity mode children => Activity mode (map erase children)
  | StrictMode children => StrictMode (map erase children)
  end.

(** The event handlers attached in a tree, in document order. *)
Fixpoint handlers_of {H} (v : VNode H) : list (string * H) :=
  match v with
  | El _ _ handlers children => handlers ++ flat_map handlers_of children
  | Suspense fallback children => flat_map handlers_of children
  | Activity _ children => flat_map handlers_of children
  | StrictMode children => flat_map handlers_of children
  | _ => []
  end.

(** The markup a server render produces, as a tree.  A host element keeps
    the props React was given ([className], [key]); how React writes them
    into the string is not modelled.  A [Suspense] boundary is emitted
    either completed or with its fallback. *)
Inductive Html :=
| HEl (tag : string) (attrs : list (string * string)) (children : list Html)
| HText (s : string)
| HBoundary (completed : bool) (children : list Html)
| HActivity (mode : Mode) (children : list Html).

(** A render either returns, or suspends on a promise, or throws. *)
Inductive Outcome (A : Type) :=
| Done (a : A)
| Suspended (p : nat)
| Thrown (error : string).

Arguments Done {A} a.
Arguments Suspended {A} p.
Arguments Thrown {A} error.

Definition Render (A : Type) : Type := World → Outcome A * World.

#[global] Instance Render_ret : MRet Render := λ A x w, (Done x, w).
#[global] Instance Render_bind : MBind Render :=
  λ A B f m w,
    match m w with
    | (Done x, w') => f x w'
    | (Suspended p, w') => (Suspended p, w')
    | (Thrown e, w') => (Thrown e, w')
    end.

Definition lift {A} (m : M A) : Render A :=
  λ w, let '(x, w') := m w in (Done x, w').

Definition throw {A} (error : string) : Render A := λ w, (Thrown error, w).

(** [use(promise)]: the value of a fulfilled promise; a pending promise
    suspends the render; a rejected one throws.  [None] is [undefined],
    which [use] does not accept. *)
Definition use (promise : option nat) : Render Value :=
  λ w,
    match promise with
    | None => (Thrown "TypeError", w)
    | Some p =>
        match promises w !! p with
        | Some (Fulfilled v) => (Done v, w)
        | Some Pending => (Suspended p, w)
        | Some (Rejected _) => (Thrown "rejected", w)
        | None => (Thrown "TypeError", w)
        end
    end.

(** [renderToString]: one synchronous pass over the tree.  A boundary
    whose content suspends is emitted with its fallback; the effects of
    the attempt stay.  [comp] renders a component element. *)
Fixpoint render_with (comp : Element → Render (list Html))
    (v : VNode unit) {struct v} : Render (list Html) :=
  let children :=
    fix children (vs : list (VNode unit)) : Render (list Html) :=
      match vs with
      | [] => mret []
      | v :: vs' =>
          h ← render_with comp v; hs ← children vs'; mret (h ++ hs)
      end in
  match v with
  | El tag attrs _ cs => hs ← children cs; mret [HEl tag attrs hs]
  | Text s => mret [HText s]
  | Falsy => mret []
  | Comp e => comp e
  | Suspense fallback cs =>
      λ w,
        match children cs w with
        | (Done hs, w') => (Done [HBoundary true hs], w')
        | (Suspended _, w') =>
            (hs ← children fallback; mret [HBoundary false hs]) w'
        | (Thrown e, w') => (Thrown e, w')
        end
  | Activity mode cs => hs ← children cs; mret [HActivity mode hs]
  | StrictMode cs => children cs
  end.

Definition render_children (comp : Element → Render (list Html))
  : list (VNode unit) → Render (list Html) :=
  fix children (vs : list (VNode unit)) : Render (list Html) :=
    match vs with
    | [] => mret []
    | v :: vs' =>
        h ← render_with comp v; hs ← children vs'; mret (h ++ hs)
    end.

(** A component element is rendered by calling its body, given by
    [body], with its initial state, and rendering what it returns; the
    nesting of components is bounded by [fuel]. *)
Fixpoint render_node (body : Element → Render (VNode unit))
    (fuel : nat) : VNode unit → Render (list Html) :=
  match fuel with
  | O => λ _, throw "component nesting too deep"
  | S fuel' =>
      render_with (λ e, v' ← body e; render_node body fuel' v')
  end.

(** A suspension outside every boundary, and every error, end the
    pass. *)
Definition renderToString (body : Element → Render (VNode unit))
    (v : VNode unit) : Render (list Html) :=
  λ w,
    match render_node body 8 v w with
    | (Suspended p, w') => (Thrown "suspended outside a boundary", w')
    | r => r
    end.

(** *** Which component instances a re-render keeps

    React identifies a component instance by the position of its element
    in the tree and by the component function.  [instances] lists the
    component elements of a tree with their positions (child indices
    from the root).  A child that renders nothing still occupies its
    position; the children of an [Activity] are in the tree whatever its
    mode. *)
Fixpoint instances {H} (path : list nat) (v : VNode H)
  : list (list nat * Element) :=
  let children :=
    fix children (i : nat) (vs : list (VNode H))
      : list (list nat * Element) :=
      match vs with
      | [] => []
      | v :: vs' => instances (path ++ [i]) v ++ children (S i) vs'
      end in
  match v with
  | El _ _ _ cs => children 0 cs
  | Comp e => [(path, e)]
  | Suspense _ cs => children 0 cs
  | Activity _ cs => children 0 cs
  | StrictMode cs => children 0 cs
  | Text _ | Falsy => []
  end.

(** The modes of the [Activity] boundaries of a tree, in document
    order. *)
Fixpoint modes {H} (v : VNode H) : list Mode :=
  match v with
  | El _ _ _ cs => flat_map modes cs
  | Suspense _ cs => flat_map modes cs
  | Activity m cs => m :: flat_map modes cs
  | StrictMode cs => flat_map modes cs
  | _ => []
  end.

(** The component function an element refers to. *)
Definition type_of (e : Element) : nat :=
  match e with
  | EApp => 0
  | ESuspenseDemo => 1
  | EActivityDemo => 2
  | EViewTransitionsDemo => 3
  | EServerComponentsDemo => 4
  | EUserCard _ => 5
  | EPostsList _ => 6
  | ELoadingSpinner _ => 7
  | EVideoPlayer _ => 8
  | ECommentDraft => 9
  | EListView => 10
  | EDetailView _ => 11
  | EServerProductList => 12
  | EClientCounter _ => 13
  | EServerActionDemo => 14
  end.

Section Reconciler.
Context {S : Type} (initial_state : Element → S).

(** An instance found at the same position with the same component
    keeps its state; otherwise the component is mounted with its
    initial state. *)
Definition mount_or_keep (old : gmap (list nat) (Element * S))
    (x : list nat * Element) : list nat * (Element * S) :=
  (x.1,
   match old !! x.1 with
   | Some (e', st) =>
       if (type_of e' =? type_of x.2)%nat then (x.2, st)
       else (x.2, initial_state x.2)
   | None => (x.2, initial_state x.2)
   end).

(** The instances after a re-render; instances of the old tree that
    the new tree does not contain are unmounted and their state is
    dropped. *)
Definition reconcile {H : Type} (old : gmap (list nat) (Element * S))
    (v : VNode H) : gmap (list nat) (Element * S) :=
  list_to_map (mount_or_keep old <$> instances [] v).

End Reconciler.

End React.

Import React.

(** ** src/demos/SuspenseDemo.tsx: fetch simulators and promise caches *)

Module SuspenseDemo.

(** [fetchUser(id)]: resolves after 1500 ms with the user built from
    [id]. *)
Definition fetchUser (id : Z) : M nat :=
  p ← new_promise;
  setTimeout
    (Resolve p (VUser
       {| user_id := id;
          user_name := "User " +:+ pretty id;
          user_email := "user" +:+ pretty id +:+ "@example.com" |}))
    1500;;
  mret p.

(** [fetchPosts(userId)]: resolves after 2000 ms with three posts. *)
Definition fetchPosts (userId : Z) : M nat :=
  p ← new_promise;
  setTimeout
    (Resolve p (VPosts
       [ {| post_id := 1; post_title := "Post 1 by user " +:+ pretty userId |};
         {| post_id := 2; post_title := "Post 2 by user " +:+ pretty userId |};
         {| post_id := 3; post_title := "Post 3 by user " +:+ pretty userId |} ]))
    2000;;
  mret p.

(** [getUserPromise(id)]: [has], then [set] on a miss, then [get].  The
    result is what [Map.get] returns: [None] stands for [undefined]. *)
Definition getUserPromise (id : Z) : M (option nat) :=
  has ← gets (λ w, bool_decide (is_Some (userCache w !! id)));
  (if negb has
   then p ← fetchUser id; modify (set_userCache <[id := p]>)
   else mret tt);;
  gets (λ w, userCache w !! id).

Definition getPostsPromise (userId : Z) : M (option nat) :=
  has ← gets (λ w, bool_decide (is_Some (postsCache w !! userId)));
  (if negb has
   then p ← fetchPosts userId; modify (set_postsCache <[userId := p]>)
   else mret tt);;
  gets (λ w, postsCache w !! userId).

(** [Map.prototype.delete]: removes the entry and tells whether there was
    one; it never throws. *)
Definition userCache_delete (id : Z) : M bool :=
  had ← gets (λ w, bool_decide (is_Some (userCache w !! id)));
  modify (set_userCache (delete id));;
  mret had.

Definition postsCache_delete (id : Z) : M bool :=
  had ← gets (λ w, bool_decide (is_Some (postsCache w !! id)));
  modify (set_postsCache (delete id));;
  mret had.

(** [handleChangeUser] of the component, for the current [userId]: evicts
    the next user from both caches and returns the new [userId] that
    [setUserId] receives. *)
Definition handleChangeUser (userId : Z) : M Z :=
  let newId := (userId + 1)%Z in
  userCache_delete newId;;
  postsCache_delete newId;;
  mret newId.

(** *** The components *)

(** The one closure the component attaches: [onClick={handleChangeUser}]. *)
Inductive Handler := HandleChangeUser.

(** The consumers of promises.  The typed source reads fields of the
    value [use] returns; a value of another shape never reaches them
    (the caches only hold promises of the fetch for their key), and the
    model stops the render there. *)
Definition UserCard (userPromise : option nat) : Render (VNode unit) :=
  user ← use userPromise;
  match user with
  | VUser user =>
      mret (El "div" [className "user-card"] []
              [ El "h3" [] [] [Text (user_name user)];
                El "p" [] [] [Text (user_email user)] ])
  | _ => throw "TypeError"
  end.

Definition PostsList (postsPromise : option nat) : Render (VNode unit) :=
  posts ← use postsPromise;
  match posts with
  | VPosts posts =>
      mret (El "ul" [className "posts-list"] []
              (map (λ post,
                      El "li" [("key", pretty (post_id post))] []
                        [Text (post_title post)])
                   posts))
  | _ => throw "TypeError"
  end.

Definition LoadingSpinner (label : string) : VNode unit :=
  El "div" [className "loading-spinner"] []
    [ El "div" [className "spinner"] [] [];
      El "span" [] [] [Text "Loading "; Text label; Text "..."] ].

(** The JSX expression [SuspenseDemo] returns, as a function of the
    values it mentions. *)
Definition SuspenseDemo_return (userId : Z)
    (userPromise postsPromise : option nat) : VNode Handler :=
  El "div" [className "demo-section"] []
    [ El "h2" [] [] [Text "Suspense Demo"];
      El "p" [className "demo-description"] []
        [ Text "React 19's "; El "code" [] [] [Text "use()"];
          Text " hook lets you read promises directly in components. Suspense boundaries catch the pending state and show fallback UI." ];
      El "button" [className "demo-button"]
        [("onClick", HandleChangeUser)]
        [Text "Load User "; Text (pretty (userId + 1)%Z)];
      El "div" [className "suspense-container"] []
        [ Suspense [Comp (ELoadingSpinner "user")]
            [ Comp (EUserCard userPromise);
              Suspense [Comp (ELoadingSpinner "posts")]
                [Comp (EPostsList postsPromise)] ] ] ].

(** [SuspenseDemo], for the current value of its state [userId].  Both
    cache lookups are arguments inside the JSX expression: they are
    evaluated, in this order, when the body runs, before React renders
    any child. *)
Definition SuspenseDemo (userId : Z) : M (VNode Handler) :=
  userPromise ← getUserPromise userId;
  postsPromise ← getPostsPromise userId;
  mret (SuspenseDemo_return userId userPromise postsPromise).

(** [useState(1)] *)
Definition initial_userId : Z := 1.

End SuspenseDemo.

(** ** src/demos/ServerComponentsDemo.tsx: the product fetch simulator *)

Module ServerComponentsDemo.

Definition products : list Product :=
  [ {| product_id := 1; product_name := "Laptop"; product_price := 999;
       product_serverOnly :=
         "Secret: Database connection string - never sent to client!" |};
    {| product_id := 2; product_name := "Mouse"; product_price := 29;
       product_serverOnly := "Secret: API key - stays on server!" |};
    {| product_id := 3; product_name := "Keyboard"; product_price := 79;
       product_serverOnly := "Secret: Internal server data" |} ].

(** [fetchServerData()]: an [async] function.  It creates the promise of
    an 800 ms timer, awaits it, and then returns the products; the
    function's own promise [q] is resolved by that continuation. *)
Definition fetchServerData : M nat :=
  q ← new_promise;
  p ← new_promise;
  setTimeout (Resolve p VUndefined) 800;;
  await p (Resolve q (VServerData products));;
  mret q.

(** [getServerData()]: fills the singleton cache when it is [null] and
    returns its content. *)
Definition getServerData : M (option nat) :=
  c ← gets serverDataCache;
  (if negb (bool_decide (is_Some c))
   then q ← fetchServerData; modify (set_serverDataCache (λ _, Some q))
   else mret tt);;
  gets serverDataCache.

(** The assignment [serverDataCache = null] of the demo's button. *)
Definition reset_cache : M unit := modify (set_serverDataCache (λ _, None)).

(** *** The components *)

Inductive Handler :=
| SetCount (count : Z)
| HandleSubmit
| ResetAndToggle.

Definition ServerProductList : Render (VNode unit) :=
  promise ← lift getServerData;
  data ← use promise;
  match data with
  | VServerData products =>
      mret
        (El "div" [className "server-component-box"] []
           [ El "h3" [] [] [Text "Server Component (simulated)"];
             El "p" [className "info-text"] []
               [Text "In a true RSC setup, this component runs only on the server. No JavaScript for this component is sent to the client!"];
             El "div" [className "products-grid"] []
               (map (λ product,
                       El "div" [("key", pretty (product_id product));
                                 className "product-card"] []
                         [ El "h4" [] [] [Text (product_name product)];
                           El "p" [className "price"] []
                             [Text "$"; Text (pretty (product_price product))];
                           El "p" [className "server-secret"] []
                             [Text (product_serverOnly product)] ])
                    products) ])
  | _ => throw "TypeError"
  end.

Definition ClientCounter (productName : string) (count : Z) : VNode Handler :=
  El "div" [className "client-component-box"] []
    [ El "h4" [] [] [Text "Client Component: "; Text productName];
      El "p" [className "info-text"] []
        [Text "This component is marked with 'use client' (conceptually). It includes JavaScript in the client bundle for interactivity."];
      El "div" [className "counter-controls"] []
        [ El "button" [] [("onClick", SetCount (count - 1)%Z)] [Text "-"];
          El "span" [className "count"] []
            [Text "Quantity: "; Text (pretty count)];
          El "button" [] [("onClick", SetCount (count + 1)%Z)] [Text "+"] ] ].

Definition ServerActionDemo (result : string) (loading : bool)
  : VNode Handler :=
  El "div" [className "server-action-box"] []
    [ El "h3" [] [] [Text "Server Actions (simulated)"];
      El "p" [className "info-text"] []
        [Text "Server Actions let you call server-side functions from client components. They're marked with 'use server' and run securely on the server."];
      El "form" [] [("onSubmit", HandleSubmit)]
        [ El "input" [("name", "product"); ("defaultValue", "Laptop");
                      ("placeholder", "Product name"); ("required", "true")]
            [] [];
          El "input" [("name", "quantity"); ("type", "number");
                      ("defaultValue", "1"); ("min", "1");
                      ("required", "true")] [] [];
          El "button" [("type", "submit");
                       ("disabled", if loading then "true" else "false")] []
            [Text (if loading then "Processing..."
                   else "Submit Order (Server Action)")] ];
      when (negb (String.eqb result ""))
        (El "p" [className "result-message"] [] [Text result]) ].

Definition ServerComponentsDemo (showDemo : bool) : VNode Handler :=
  El "div" [className "demo-section"] []
    [ El "h2" [] [] [Text "React Server Components Demo"];
      El "div" [className "demo-description"] []
        [ El "p" [] []
            [Text "React Server Components (RSC) let components run exclusively on the server, reducing client bundle size and enabling direct backend access."];
          El "ul" [className "feature-list"] []
            [ El "li" [] []
                [ El "strong" [] [] [Text "Server Components:"];
                  Text " Run only on server, zero client JS" ];
              El "li" [] []
                [ El "strong" [] [] [Text "Client Components:"];
                  Text " Marked with 'use client', interactive" ];
              El "li" [] []
                [ El "strong" [] [] [Text "Server Actions:"];
                  Text " Marked with 'use server', secure server functions" ];
              El "li" [] []
                [ El "strong" [] [] [Text "Async Components:"];
                  Text " Can await data directly in component body" ] ];
          El "p" [className "note"] []
            [Text "Note: This demo illustrates RSC concepts within traditional SSR. For production RSC, use Next.js App Router which has mature, stable support."] ];
      El "button" [className "demo-button"] [("onClick", ResetAndToggle)]
        [Text (if showDemo then "Reset Demo" else "Load Server Components")];
      when showDemo
        (El "div" [className "rsc-demo-container"] []
           [ Suspense
               [ El "div" [className "loading-spinner"] []
                   [ El "div" [className "spinner"] [] [];
                     El "span" [] [] [Text "Loading from server..."] ] ]
               [Comp EServerProductList];
             Comp (EClientCounter "Laptop");
             Comp EServerActionDemo;
             El "div" [className "composition-box"] []
               [ El "h3" [] [] [Text "Component Composition"];
                 El "p" [className "info-text"] []
                   [Text "Server Components can render Client Components as children. This creates an optimal balance: server-side data fetching with client-side interactivity where needed."];
                 El "div" [className "composition-example"] []
                   [ El "div" [className "server-wrapper"] []
                       [ Text "Server Component (wrapper)";
                         El "div" [className "client-island"] []
                           [ Text "Client Component (interactive island)";
                             Comp (EClientCounter "Mouse") ] ] ] ] ]) ].

End ServerComponentsDemo.

(** ** src/demos/ActivityDemo.tsx *)

Module ActivityDemo.

Record VideoPlayerState := mkVideo { currentTime : Z; isPlaying : bool }.

(** [onClick={() => setIsPlaying(!isPlaying)}] and the slider's
    [onChange]. *)
Inductive VideoHandler :=
| SetIsPlaying (playing : bool)
| SetCurrentTimeFromInput.

Definition VideoPlayer (id : string) (st : VideoPlayerState)
  : VNode VideoHandler :=
  El "div" [className "video-player"] []
    [ El "div" [className "video-placeholder"] []
        [ El "span" [] [] [Text "Video "; Text id];
          when (isPlaying st)
            (El "span" [className "playing-indicator"] [] [Text "Playing..."]) ];
      El "div" [className "video-controls"] []
        [ El "button" [] [("onClick", SetIsPlaying (negb (isPlaying st)))]
            [Text (if isPlaying st then "⏸ Pause" else "▶ Play")];
          El "input" [("type", "range"); ("min", "0"); ("max", "100");
                      ("value", pretty (currentTime st));
                      className "time-slider"]
            [("onChange", SetCurrentTimeFromInput)] [];
          El "span" [] [] [Text (pretty (currentTime st)); Text "s"] ];
      El "p" [className "state-indicator"] []
        [ Text "State: ";
          Text (if isPlaying st then "Playing" else "Paused");
          Text " at "; Text (pretty (currentTime st)); Text "s" ] ].

(** The callback of the interval the effect installs while playing. *)
Definition tick (st : VideoPlayerState) : VideoPlayerState :=
  if (100 <=? currentTime st)%Z
  then {| currentTime := 0; isPlaying := false |}
  else {| currentTime := currentTime st + 1; isPlaying := isPlaying st |}.

Record CommentDraftState := mkDraft { text : string; name : string }.

Inductive DraftHandler := SetNameFromInput | SetTextFromInput.

Definition CommentDraft (st : CommentDraftState) : VNode DraftHandler :=
  El "div" [className "comment-draft"] []
    [ El "h4" [] [] [Text "Draft Comment"];
      El "input" [("type", "text"); ("placeholder", "Your name");
                  ("value", name st); className "comment-input"]
        [("onChange", SetNameFromInput)] [];
      El "textarea" [("placeholder", "Write a comment...");
                     ("value", text st); className "comment-textarea"]
        [("onChange", SetTextFromInput)] [];
      El "p" [className "state-indicator"] []
        [ Text "Draft: ";
          Text (if String.eqb (name st) "" then "" else name st +:+ ": ");
          Text (if String.eqb (text st) "" then "(empty)" else text st) ] ].

Inductive Tab := video | comment | other.

#[global] Instance Tab_eq_dec : EqDecision Tab.
Proof. solve_decision. Defined.

Inductive Handler := SetActiveTab (tab : Tab).

(** [activeTab === tab ? "visible" : "hidden"] *)
Definition mode_of (activeTab tab : Tab) : Mode :=
  if bool_decide (activeTab = tab) then visible else hidden.

Definition tab_button (activeTab tab : Tab) (label : string)
  : VNode Handler :=
  El "button"
    [className ("tab-button " +:+
                (if bool_decide (activeTab = tab) then "active" else ""))]
    [("onClick", SetActiveTab tab)]
    [Text label].

Definition ActivityDemo (activeTab : Tab) : VNode Handler :=
  El "div" [className "demo-section"] []
    [ El "h2" [] [] [Text "Activity Demo"];
      El "p" [className "demo-description"] []
        [ El "code" [] [] [Text "Activity"];
          Text " (formerly Offscreen) preserves component state when hidden. Switch tabs and notice how state is maintained without unmounting components." ];
      El "div" [className "tab-bar"] []
        [ tab_button activeTab video "Video Player";
          tab_button activeTab comment "Comment Draft";
          tab_button activeTab other "Other Tab" ];
      El "div" [className "tab-content"] []
        [ Activity (mode_of activeTab video)
            [El "div" [className "tab-panel"] [] [Comp (EVideoPlayer "main")]];
          Activity (mode_of activeTab comment)
            [El "div" [className "tab-panel"] [] [Comp ECommentDraft]];
          Activity (mode_of activeTab other)
            [ El "div" [className "tab-panel"] []
                [ El "h4" [] [] [Text "Other Content"];
                  El "p" [] []
                    [Text "This tab has no stateful content to demonstrate the contrast."];
                  El "p" [] []
                    [Text "Try editing the video player time or typing in the comment draft, then switching tabs!"] ] ] ];
      El "div" [className "demo-note"] []
        [ El "strong" [] [] [Text "Note:"];
          Text " Activity is still experimental (unstable_Activity). It's useful for tab interfaces, navigation drawers, and any UI where you want to preserve state while hiding content." ] ].

(** [useState<Tab>("video")], [useState(0)], [useState(false)],
    [useState("")] twice. *)
Definition initial_tab : Tab := video.
Definition initial_video : VideoPlayerState :=
  {| currentTime := 0; isPlaying := false |}.
Definition initial_draft : CommentDraftState := {| text := ""; name := "" |}.

(** *** The state inside the container

    The state of the component instances [ActivityDemo] renders. *)
Inductive State :=
| VideoState (st : VideoPlayerState)
| DraftState (st : CommentDraftState)
| NoState.

Definition initial_state (e : Element) : State :=
  match e with
  | EVideoPlayer _ => VideoState initial_video
  | ECommentDraft => DraftState initial_draft
  | _ => NoState
  end.

(** What happens while the demo is on screen: the user switches the tab
    (the container re-renders), or the state of a mounted instance
    changes (the clock ticks, the user types). *)
Inductive Event :=
| SwitchTab (tab : Tab)
| Mutate (path : list nat) (st : State).

Definition is_mutation (ev : Event) : bool :=
  match ev with Mutate _ _ => true | SwitchTab _ => false end.

Definition step (fibers : gmap (list nat) (Element * State)) (ev : Event)
  : gmap (list nat) (Element * State) :=
  match ev with
  | SwitchTab tab => reconcile initial_state fibers (ActivityDemo tab)
  | Mutate path st => alter (λ x, (x.1, st)) path fibers
  end.

(** The positions of the two stateful instances in the tree. *)
Definition video_path : list nat := [3; 0; 0; 0].
Definition draft_path : list nat := [3; 1; 0; 0].

(** The instances of a mounted [ActivityDemo], with their states. *)
Definition mounted (sv sd : State) : gmap (list nat) (Element * State) :=
  <[video_path := (EVideoPlayer "main", sv)]>
    (<[draft_path := (ECommentDraft, sd)]> ∅).

End ActivityDemo.

(** ** src/demos/ViewTransitionsDemo.tsx *)

Module ViewTransitionsDemo.

Definition items : list Item :=
  [ {| item_id := 1; item_title := "Mountain Vista";
       item_description :=
         "A breathtaking view of snow-capped mountains at sunrise. The golden light paints the peaks in warm hues while the valleys below remain in cool shadow.";
       item_image := "🏔️" |};
    {| item_id := 2; item_title := "Ocean Waves";
       item_description :=
         "Powerful waves crash against weathered rocks on a dramatic coastline. The sea spray catches the afternoon light, creating rainbows in the mist.";
       item_image := "🌊" |};
    {| item_id := 3; item_title := "Forest Path";
       item_description :=
         "A winding trail through an ancient forest, dappled sunlight filtering through the canopy. Moss covers the ground in a soft green carpet.";
       item_image := "🌲" |};
    {| item_id := 4; item_title := "Desert Sunset";
       item_description :=
         "The vast desert landscape transforms under a spectacular sunset. Cacti stand as silhouettes against the vibrant orange and purple sky.";
       item_image := "🏜️" |} ].

(** The closures attached as click handlers: [() => onSelect(item)] with
    [onSelect={handleSelect}], and [onBack={handleBack}]. *)
Inductive Handler :=
| HandleSelect (item : Item)
| HandleBack.

Definition viewTransitionName (region : string) (item : Item)
  : string * string :=
  ("style.viewTransitionName", region +:+ "-" +:+ pretty (item_id item)).

Definition item_card (item : Item) : VNode Handler :=
  El "button" [("key", pretty (item_id item)); className "item-card"]
    [("onClick", HandleSelect item)]
    [ El "span" [className "item-emoji"; viewTransitionName "image" item] []
        [Text (item_image item)];
      El "span" [className "item-title"; viewTransitionName "title" item] []
        [Text (item_title item)] ].

Definition ListView : VNode Handler :=
  El "div" [className "list-view"] []
    [ El "h3" [] [] [Text "Gallery"];
      El "div" [className "item-grid"] [] (map item_card items) ].

Definition DetailView (item : Item) : VNode Handler :=
  El "div" [className "detail-view"] []
    [ El "button" [className "back-button"] [("onClick", HandleBack)]
        [Text "← Back to Gallery"];
      El "div" [className "detail-content"] []
        [ El "span" [className "detail-emoji"; viewTransitionName "image" item]
            [] [Text (item_image item)];
          El "h3" [className "detail-title"; viewTransitionName "title" item]
            [] [Text (item_title item)];
          El "p" [className "detail-description"] []
            [Text (item_description item)] ] ].

(** [ViewTransitionsDemo], for the current value of [selectedItem]. *)
Definition ViewTransitionsDemo (selectedItem : option Item)
  : VNode Handler :=
  El "div" [className "demo-section"] []
    [ El "h2" [] [] [Text "View Transitions Demo"];
      El "p" [className "demo-description"] []
        [ Text "View Transitions use the browser's View Transitions API with";
          Text " ";
          El "code" [] [] [Text "flushSync"];
          Text " to force synchronous DOM updates. Elements with matching ";
          El "code" [] [] [Text "viewTransitionName"];
          Text " styles animate smoothly between views." ];
      El "div" [className "transition-container"] []
        [ match selectedItem with
          | Some item => Comp (EDetailView item)
          | None => Comp EListView
          end ];
      El "div" [className "demo-note"] []
        [ El "strong" [] [] [Text "Note:"];
          Text " View Transitions require browser support (Chrome 111+, Edge 111+). The ";
          El "code" [] [] [Text "flushSync"];
          Text " ensures the DOM updates synchronously within the transition callback." ] ].

(** [useState<Item | null>(null)] *)
Definition initial_selectedItem : option Item := None.

(** *** The two handlers

    What a handler does is a list of commands: calls of the state
    setter, of React's [flushSync], and of the browser's
    [document.startViewTransition], the last two with the commands of
    the callback they receive. *)
Inductive Cmd :=
| SetSelectedItem (value : option Item)
| FlushSync (callback : list Cmd)
| StartViewTransition (callback : list Cmd).

(** The [document] of the page: is [startViewTransition] defined? *)
Record Document := mkDocument { startViewTransition : bool }.

Definition handleSelect (document : Document) (item : Item) : list Cmd :=
  if startViewTransition document
  then [StartViewTransition [FlushSync [SetSelectedItem (Some item)]]]
  else [SetSelectedItem (Some item)].

Definition handleBack (document : Document) : list Cmd :=
  if startViewTransition document
  then [StartViewTransition [FlushSync [SetSelectedItem None]]]
  else [SetSelectedItem None].

(** *** What the commands do

    The browser calls the callback of [startViewTransition] in a later
    task; no other code of the component runs in between, so the call is
    run in place here.  React keeps the value the screen shows ([shown])
    and the updates that were requested and not yet rendered
    ([requested]).  A setter
    call requests an update; [flushSync] runs its callback and renders
    what was requested before it returns; otherwise React renders the
    requested updates later, on its own turn ([react_turn]).  The
    browser's [startViewTransition] captures the screen, calls the
    callback, and captures the screen again: [captured] logs the two
    values each transition saw. *)
Record Screen := mkScreen
  { shown : option Item;
    requested : list (option Item);
    captured : list (option Item * option Item) }.

Definition render_requested (s : Screen) : Screen :=
  {| shown := default (shown s) (last (requested s));
     requested := [];
     captured := captured s |}.

Fixpoint run_cmd (c : Cmd) (s : Screen) : Screen :=
  let run_cmds :=
    fix run_cmds (cs : list Cmd) (s : Screen) : Screen :=
      match cs with
      | [] => s
      | c :: cs' => run_cmds cs' (run_cmd c s)
      end in
  match c with
  | SetSelectedItem value =>
      {| shown := shown s;
         requested := requested s ++ [value];
         captured := captured s |}
  | FlushSync callback => render_requested (run_cmds callback s)
  | StartViewTransition callback =>
      let s' := run_cmds callback s in
      {| shown := shown s';
         requested := requested s';
         captured := captured s' ++ [(shown s, shown s')] |}
  end.

Definition run_handler (cs : list Cmd) (s : Screen) : Screen :=
  foldl (λ s c, run_cmd c s) s cs.

Definition react_turn (s : Screen) : Screen := render_requested s.

(** A screen at rest: nothing requested, nothing captured yet. *)
Definition at_rest (selectedItem : option Item) : Screen :=
  {| shown := selectedItem; requested := []; captured := [] |}.

(** The component elements the component renders for a selection. *)
Definition view (selectedItem : option Item) : list (list nat * Element) :=
  instances [] (ViewTransitionsDemo selectedItem).

End ViewTransitionsDemo.

(** ** src/App.tsx *)

Module App.

Inductive Demo := suspense | activity | viewtransitions | servercomponents.

#[global] Instance Demo_eq_dec : EqDecision Demo.
Proof. solve_decision. Defined.

(** The closures [() => setActiveDemo(demo)] of the navigation. *)
Inductive Handler := SetActiveDemo (demo : Demo).

(** A button of the navigation bar. *)
Definition nav_button (activeDemo demo : Demo) (label : string)
  : VNode Handler :=
  El "button"
    [className ("nav-button " +:+
                (if bool_decide (activeDemo = demo) then "active" else ""))]
    [("onClick", SetActiveDemo demo)]
    [Text label].

(** [App], for the current value of [activeDemo]. *)
Definition App (activeDemo : Demo) : VNode Handler :=
  El "div" [className "app"] []
    [ El "header" [className "app-header"] []
        [ El "h1" [] [] [Text "React 19 Features Demo"];
          El "p" [] []
            [Text "Exploring Suspense, Activity, View Transitions, and Server Components"] ];
      El "nav" [className "demo-nav"] []
        [ nav_button activeDemo suspense "Suspense";
          nav_button activeDemo activity "Activity";
          nav_button activeDemo viewtransitions "View Transitions";
          nav_button activeDemo servercomponents "Server Components" ];
      El "main" [className "demo-content"] []
        [ when (bool_decide (activeDemo = suspense)) (Comp ESuspenseDemo);
          when (bool_decide (activeDemo = activity)) (Comp EActivityDemo);
          when (bool_decide (activeDemo = viewtransitions))
            (Comp EViewTransitionsDemo);
          when (bool_decide (activeDemo = servercomponents))
            (Comp EServerComponentsDemo) ] ].

(** [useState<Demo>("suspense")] *)
Definition initial_activeDemo : Demo := suspense.

(** Calling a handler of the tree: the setter replaces the state. *)
Definition handle (h : Handler) (activeDemo : Demo) : Demo :=
  match h with SetActiveDemo demo => demo end.

(** What can happen to a mounted [App]: React renders it again, or the
    user clicks the [i]-th handler of the rendered tree. *)
Inductive Event := Rerender | Click (i : nat).

Definition step (activeDemo : Demo) (ev : Event) : Demo :=
  match ev with
  | Rerender => activeDemo
  | Click i =>
      match handlers_of (App activeDemo) !! i with
      | Some (_, h) => handle h activeDemo
      | None => activeDemo
      end
  end.

Definition all_demos : list Demo :=
  [suspense; activity; viewtransitions; servercomponents].

(** The position of a demo among the navigation buttons and among the
    children of [<main>]. *)
Definition slot (d : Demo) : nat :=
  match d with
  | suspense => 0
  | activity => 1
  | viewtransitions => 2
  | servercomponents => 3
  end.

(** The element of the demo a selection stands for. *)
Definition element_of (demo : Demo) : Element :=
  match demo with
  | suspense => ESuspenseDemo
  | activity => EActivityDemo
  | viewtransitions => EViewTransitionsDemo
  | servercomponents => EServerComponentsDemo
  end.

End App.

(** The revision of src/App.tsx from before the server components demo
    was added: three demos. *)

Module AppEarlier.

Inductive Demo := suspense | activity | viewtransitions.

#[global] Instance Demo_eq_dec : EqDecision Demo.
Proof. solve_decision. Defined.

Inductive Handler := SetActiveDemo (demo : Demo).

Definition nav_button (activeDemo demo : Demo) (label : string)
  : VNode Handler :=
  El "button"
    [className ("nav-button " +:+
                (if bool_decide (activeDemo = demo) then "active" else ""))]
    [("onClick", SetActiveDemo demo)]
    [Text label].

Definition App (activeDemo : Demo) : VNode Handler :=
  El "div" [className "app"] []
    [ El "header" [className "app-header"] []
        [ El "h1" [] [] [Text "React 19 Features Demo"];
          El "p" [] []
            [Text "Exploring Suspense, Activity, and View Transitions"] ];
      El "nav" [className "demo-nav"] []
        [ nav_button activeDemo suspense "Suspense";
          nav_button activeDemo activity "Activity";
          nav_button activeDemo viewtransitions "View Transitions" ];
      El "main" [className "demo-content"] []
        [ when (bool_decide (activeDemo = suspense)) (Comp ESuspenseDemo);
          when (bool_decide (activeDemo = activity)) (Comp EActivityDemo);
          when (bool_decide (activeDemo = viewtransitions))
            (Comp EViewTransitionsDemo) ] ].

Definition initial_activeDemo : Demo := suspense.

End AppEarlier.

(** ** src/entry-server.tsx *)

Module EntryServer.

(** What React calls for a component element on a first render: the
    body of the component with the initial values of its state. *)
Definition initial_body (e : Element) : Render (VNode unit) :=
  match e with
  | EApp => mret (erase (App.App App.initial_activeDemo))
  | ESuspenseDemo =>
      lift (v ← SuspenseDemo.SuspenseDemo SuspenseDemo.initial_userId;
            mret (erase v))
  | EActivityDemo =>
      mret (erase (ActivityDemo.ActivityDemo ActivityDemo.initial_tab))
  | EViewTransitionsDemo =>
      mret (erase (ViewTransitionsDemo.ViewTransitionsDemo
                     ViewTransitionsDemo.initial_selectedItem))
  | EServerComponentsDemo =>
      mret (erase (ServerComponentsDemo.ServerComponentsDemo false))
  | EUserCard userPromise => SuspenseDemo.UserCard userPromise
  | EPostsList postsPromise => SuspenseDemo.PostsList postsPromise
  | ELoadingSpinner label => mret (SuspenseDemo.LoadingSpinner label)
  | EVideoPlayer id =>
      mret (erase (ActivityDemo.VideoPlayer id ActivityDemo.initial_video))
  | ECommentDraft =>
      mret (erase (ActivityDemo.CommentDraft ActivityDemo.initial_draft))
  | EListView => mret (erase ViewTransitionsDemo.ListView)
  | EDetailView item => mret (erase (ViewTransitionsDemo.DetailView item))
  | EServerProductList => ServerComponentsDemo.ServerProductList
  | EClientCounter productName =>
      mret (erase (ServerComponentsDemo.ClientCounter productName 0))
  | EServerActionDemo =>
      mret (erase (ServerComponentsDemo.ServerActionDemo "" false))
  end.

(** Rendering a component element when [fuel] levels of nesting are
    left. *)
Definition comp_at (fuel : nat) (e : Element) : Render (list Html) :=
  v' ← initial_body e; render_node initial_body fuel v'.

(** [render(_url, _ssrManifest)].  The object it returns is a finite map
    from property names to values: [{ html }] has the one property
    [html]. *)
Definition render (_url : string) (_ssrManifest : option string)
  : Render (gmap string (list Html)) :=
  html ← renderToString initial_body (StrictMode [Comp EApp]);
  mret {[ "html" := html ]}.

End EntryServer.

(** ** The markup the server is expected to produce *)

Module ServerMarkup.

(** The app shell with [suspense] selected, around the markup [demo] of
    the demo. *)
Definition shell (demo : list Html) : list Html :=
  [ HEl "div" [className "app"]
      [ HEl "header" [className "app-header"]
          [ HEl "h1" [] [HText "React 19 Features Demo"];
            HEl "p" []
              [HText "Exploring Suspense, Activity, View Transitions, and Server Components"] ];
        HEl "nav" [className "demo-nav"]
          [ HEl "button" [className "nav-button active"] [HText "Suspense"];
            HEl "button" [className "nav-button "] [HText "Activity"];
            HEl "button" [className "nav-button "]
              [HText "View Transitions"];
            HEl "button" [className "nav-button "]
              [HText "Server Components"] ];
        HEl "main" [className "demo-content"] demo ] ].

Definition spinner (label : string) : Html :=
  HEl "div" [className "loading-spinner"]
    [ HEl "div" [className "spinner"] [];
      HEl "span" [] [HText "Loading "; HText label; HText "..."] ].

Definition user_card (user : User) : Html :=
  HEl "div" [className "user-card"]
    [ HEl "h3" [] [HText (user_name user)];
      HEl "p" [] [HText (user_email user)] ].

Definition posts_list (posts : list Post) : Html :=
  HEl "ul" [className "posts-list"]
    ((λ post, HEl "li" [("key", pretty (post_id post))]
                [HText (post_title post)]) <$> posts).

(** The subtree of the suspense demo for user 1.  The outer boundary is
    completed when the user is there, and then the inner boundary is
    completed when the posts are there; a boundary that is not completed
    shows its spinner. *)
Definition suspense_demo (user : option User) (posts : option (list Post))
  : list Html :=
  [ HEl "div" [className "demo-section"]
      [ HEl "h2" [] [HText "Suspense Demo"];
        HEl "p" [className "demo-description"]
          [ HText "React 19's "; HEl "code" [] [HText "use()"];
            HText " hook lets you read promises directly in components. Suspense boundaries catch the pending state and show fallback UI." ];
        HEl "button" [className "demo-button"]
          [HText "Load User "; HText "2"];
        HEl "div" [className "suspense-container"]
          [ match user with
            | None => HBoundary false [spinner "user"]
            | Some user =>
                HBoundary true
                  [ user_card user;
                    match posts with
                    | None => HBoundary false [spinner "posts"]
                    | Some posts => HBoundary true [posts_list posts]
                    end ]
            end ] ] ].

(** What the caches hold for user 1 that is already there. *)
Definition ready_user (w : World) : option User :=
  match userCache w !! 1%Z with
  | Some p =>
      match promises w !! p with
      | Some (Fulfilled (VUser user)) => Some user
      | _ => None
      end
  | None => None
  end.

Definition ready_posts (w : World) : option (list Post) :=
  match postsCache w !! 1%Z with
  | Some p =>
      match promises w !! p with
      | Some (Fulfilled (VPosts posts)) => Some posts
      | _ => None
      end
  | None => None
  end.

End ServerMarkup.

(** ** src/main.tsx *)

Module Main.

(** The nodes of the page below the root container. *)
Inductive DomNode :=
| DomElement (tag : string) (childNodes : list DomNode)
| DomText (data : string)
| DomComment (data : string).

Definition is_element (n : DomNode) : bool :=
  match n with DomElement _ _ => true | _ => false end.

(** [Element.children]: the child nodes that are elements. *)
Definition children (childNodes : list DomNode) : list DomNode :=
  List.filter is_element childNodes.

(** The page: what [document.getElementById('root')] finds, given by
    the child nodes of the container, or [None] for [null]. *)
Record Document := mkDocument { root : option (list DomNode) }.

(** The two calls into React, with their arguments.  What React then
    does with the nodes of the container is decided inside React and is
    not part of this module. *)
Inductive Mount :=
| HydrateRoot (container : list DomNode) (element : VNode unit)
| CreateRootRender (container : list DomNode) (element : VNode unit).

Definition hasServerContent (rootElement : list DomNode) : bool :=
  (0 <? length (children rootElement))%nat.

(** The module body.  [None]: reading [children] of [null] throws. *)
Definition main (document : Document) : option Mount :=
  match root document with
  | None => None
  | Some rootElement =>
      Some (if hasServerContent rootElement
            then HydrateRoot rootElement (StrictMode [Comp EApp])
            else CreateRootRender rootElement (StrictMode [Comp EApp]))
  end.

Definition hydrates (m : Mount) : bool :=
  match m with HydrateRoot _ _ => true | CreateRootRender _ _ => false end.

End Main.

(** ** What can happen to the caches and the clock

    The operations the components perform on the realm between two renders,
    and the passing of time.  A history of the program is a list of them. *)

Module History.
Import SuspenseDemo ServerComponentsDemo.

Inductive Op :=
| GetUser (id : Z)
| GetPosts (userId : Z)
| EvictUser (id : Z)
| EvictPosts (id : Z)
| ChangeUser (userId : Z)
| GetServerData
| ResetServerData
| Advance (dt : N).

Definition perform (o : Op) (w : World) : World :=
  match o with
  | GetUser id => (getUserPromise id w).2
  | GetPosts id => (getPostsPromise id w).2
  | EvictUser id => (userCache_delete id w).2
  | EvictPosts id => (postsCache_delete id w).2
  | ChangeUser userId => (handleChangeUser userId w).2
  | GetServerData => (getServerData w).2
  | ResetServerData => (reset_cache w).2
  | Advance dt => advance dt w
  end.

(** Each operation is a turn of the event loop: when its synchronous code
    has run, a microtask checkpoint follows. *)
Definition exec (o : Op) (w : World) : World :=
  run_microtasks (perform o w).

Definition run (os : list Op) (w : World) : World :=
  foldl (λ w o, exec o w) w os.

(** Does the operation delete key [k] from [userCache] (resp.
    [postsCache])? *)
Definition evicts_user (k : Z) (o : Op) : bool :=
  match o with
  | EvictUser id => bool_decide (id = k)
  | ChangeUser userId => bool_decide ((userId + 1)%Z = k)
  | _ => false
  end.

Definition evicts_posts (k : Z) (o : Op) : bool :=
  match o with
  | EvictPosts id => bool_decide (id = k)
  | ChangeUser userId => bool_decide ((userId + 1)%Z = k)
  | _ => false
  end.

End History.

(** ** Vocabulary of the statements *)

Module Effects.
Import SuspenseDemo ServerComponentsDemo.

(** The payloads, as functions of the key. *)
Definition user_of (id : Z) : User :=
  {| user_id := id;
     user_name := "User " +:+ pretty id;
     user_email := "user" +:+ pretty id +:+ "@example.com" |}.

Definition posts_of (userId : Z) : list Post :=
  [ {| post_id := 1; post_title := "Post 1 by user " +:+ pretty userId |};
    {| post_id := 2; post_title := "Post 2 by user " +:+ pretty userId |};
    {| post_id := 3; post_title := "Post 3 by user " +:+ pretty userId |} ].

(** A fresh pending promise at [next_promise w] and one timer for it. *)
Definition with_fetch (delay : N) (v : Value) (w : World) : World :=
  set_timers (insert_timer ((now w + delay)%N, Resolve (next_promise w) v))
    (set_next_promise S (set_promises <[next_promise w := Pending]> w)).

(** [fetchServerData]: its own promise [q], the timer promise [q + 1],
    the timer, and the continuation waiting for the timer promise. *)
Definition with_server_fetch (w : World) : World :=
  let q := next_promise w in
  set_reactions (λ r, r ++ [(S q, Resolve q (VServerData products))])
    (set_timers (insert_timer ((now w + 800)%N, Resolve (S q) VUndefined))
       (set_next_promise (λ n, S (S n))
          (set_promises (λ m, <[S q := Pending]> (<[q := Pending]> m)) w))).

(** The callbacks waiting in the realm outside the timer queue. *)
Definition queued (w : World) : list Task :=
  (snd <$> reactions w) ++ microtasks w.

(** What running callbacks never changes: the allocation pointer, the
    caches, and which addresses hold a promise; and they schedule
    nothing new. *)
Definition frame (w w' : World) : Prop :=
  next_promise w' = next_promise w
  ∧ userCache w' = userCache w
  ∧ postsCache w' = postsCache w
  ∧ serverDataCache w' = serverDataCache w
  ∧ (∀ p, promises w' !! p = None ↔ promises w !! p = None)
  ∧ (∀ x, x ∈ timers w' → x ∈ timers w)
  ∧ (∀ r, r ∈ reactions w' → r ∈ reactions w)
  ∧ (∀ t, t ∈ queued w' → t ∈ queued w)
  ∧ (∀ p v, promises w !! p = Some (Fulfilled v) →
            promises w' !! p = Some (Fulfilled v))
  ∧ (∀ p r, promises w' !! p = Some (Rejected r) →
            promises w !! p = Some (Rejected r)).

(** Every address the realm mentions is below the allocation pointer. *)
Definition allocated (w : World) : Prop :=
  (∀ p, next_promise w ≤ p → promises w !! p = None)
  ∧ (∀ x, x ∈ timers w → target x.2 < next_promise w)
  ∧ (∀ r, r ∈ reactions w → r.1 < next_promise w)
  ∧ (∀ t, t ∈ queued w → target t < next_promise w)
  ∧ (∀ k p, userCache w !! k = Some p → p < next_promise w)
  ∧ (∀ k p, postsCache w !! k = Some p → p < next_promise w)
  ∧ (∀ p, serverDataCache w = Some p → p < next_promise w).

(** Promise [p] is pending until the timer at [d] fulfils it with [v];
    nothing else in the realm resolves it. *)
Definition timed (p : nat) (v : Value) (d : N) (w : World) : Prop :=
  ((now w < d)%N
   ∧ promises w !! p = Some Pending
   ∧ (d, Resolve p v) ∈ timers w
   ∧ (∀ x, x ∈ timers w → target x.2 = p → x = (d, Resolve p v))
   ∧ (∀ t, t ∈ queued w → target t ≠ p))
  ∨ ((d ≤ now w)%N ∧ promises w !! p = Some (Fulfilled v)).

(** Nothing that can run before the timer of [p] fires touches [p] or
    the promise [q] that waits for it. *)
Definition dormant (q p : nat) (w : World) : Prop :=
  (∀ t, t ∈ microtasks w → target t ≠ p ∧ target t ≠ q)
  ∧ (∀ r, r ∈ reactions w →
          target r.2 ≠ p ∧ (target r.2 = q → r.1 = p)).

(** The promise [q] of an [async] function is pending until the timer at
    [d] fulfils [p] and the continuation waiting for [p] fulfils [q]
    with [v]. *)
Definition awaited (q : nat) (v : Value) (p : nat) (d : N) (w : World)
  : Prop :=
  ((now w < d)%N
   ∧ promises w !! q = Some Pending
   ∧ promises w !! p = Some Pending
   ∧ p ≠ q
   ∧ (d, Resolve p VUndefined) ∈ timers w
   ∧ (∀ x, x ∈ timers w → target x.2 ≠ q ∧ (target x.2 = p → x.1 = d))
   ∧ (p, Resolve q v) ∈ reactions w
   ∧ (∀ r, r ∈ reactions w → target r.2 = q → r.2 = Resolve q v)
   ∧ dormant q p w)
  ∨ ((d ≤ now w)%N ∧ promises w !! q = Some (Fulfilled v)).

(** From [w] to [w'] the pair stayed dormant and as it was. *)
Definition undisturbed (q p : nat) (w w' : World) : Prop :=
  dormant q p w'
  ∧ promises w' !! p = promises w !! p
  ∧ promises w' !! q = promises w !! q
  ∧ (∀ t, (p, t) ∈ reactions w → (p, t) ∈ reactions w').

(** Synchronous code only adds to the realm, and what it adds concerns
    promises it has just allocated. *)
Definition grows (w w' : World) : Prop :=
  now w' = now w
  ∧ microtasks w' = microtasks w
  ∧ (∀ p, p < next_promise w → promises w' !! p = promises w !! p)
  ∧ (∀ x, x ∈ timers w → x ∈ timers w')
  ∧ (∀ x, x ∈ timers w' → x ∈ timers w ∨ next_promise w ≤ target x.2)
  ∧ (∀ r, r ∈ reactions w → r ∈ reactions w')
  ∧ (∀ r, r ∈ reactions w' →
          r ∈ reactions w
          ∨ (next_promise w ≤ r.1 ∧ next_promise w ≤ target r.2))
  ∧ (∀ p r, promises w' !! p = Some (Rejected r) →
            promises w !! p = Some (Rejected r)).

Definition no_rejection (w : World) : Prop :=
  ∀ p r, promises w !! p ≠ Some (Rejected r).

(** Every cached promise is the promise of a fetch for its key. *)
Definition caches_typed (w : World) : Prop :=
  (∀ k p, userCache w !! k = Some p →
          ∃ d, timed p (VUser (user_of k)) d w)
  ∧ (∀ k p, postsCache w !! k = Some p →
            ∃ d, timed p (VPosts (posts_of k)) d w).

End Effects.

(** ** The video player of ActivityDemo.tsx as a machine *)

Module VideoPlayer.
Import ActivityDemo.

(** What can happen to a mounted [VideoPlayer]: a click on the play/pause
    button, a move of the slider to [value], and the callback of the
    interval.  The effect installs the interval only while [isPlaying]
    holds and clears it when [isPlaying] changes, so the callback runs
    only while playing. *)
Inductive Event :=
| ClickPlayPause
| Slide (value : Z)
| IntervalFires.

Definition step (st : VideoPlayerState) (ev : Event) : VideoPlayerState :=
  match ev with
  | ClickPlayPause =>
      {| currentTime := currentTime st; isPlaying := negb (isPlaying st) |}
  | Slide value => {| currentTime := value; isPlaying := isPlaying st |}
  | IntervalFires => if isPlaying st then tick st else st
  end.

(** The slider is [<input type="range" min="0" max="100">]: the values it
    reports lie between its bounds. *)
Definition in_range (ev : Event) : Prop :=
  match ev with
  | Slide value => (0 ≤ value ≤ 100)%Z
  | _ => True
  end.

End VideoPlayer.

(** ** The names the gallery gives to its regions *)

Module TransitionNames.

(** The values of the prop [key] in a tree, in document order. *)
Fixpoint attr_values {H} (key : string) (v : VNode H) : list string :=
  match v with
  | El _ attrs _ cs =>
      (snd <$> filter (λ a, a.1 = key) attrs) ++ flat_map (attr_values key) cs
  | Suspense _ cs => flat_map (attr_values key) cs
  | Activity _ cs => flat_map (attr_values key) cs
  | StrictMode cs => flat_map (attr_values key) cs
  | _ => []
  end.

Definition names {H} (v : VNode H) : list string :=
  attr_values "style.viewTransitionName" v.

End TransitionNames.

(** ** A mounted SuspenseDemo *)

Module SuspenseSession.
Import SuspenseDemo.

(** The state of the component and the realm it runs in. *)
Record Mounted := mkMounted { userId : Z; realm : World }.

(** One run of the body of the component. *)
Definition render_body (userId : Z) (w : World) : World :=
  (SuspenseDemo userId w).2.

(** Mounting: [useState(1)] and the first render. *)
Definition mount (w : World) : Mounted :=
  {| userId := initial_userId; realm := render_body initial_userId w |}.

(** A click on the button runs [handleChangeUser], whose [setUserId]
    makes React render the component again; React may also render it
    again on its own; time may pass. *)
Inductive Event := Click | Rerender | Wait (dt : N).

Definition step (s : Mounted) (ev : Event) : Mounted :=
  match ev with
  | Click =>
      let '(newId, w) := handleChangeUser (userId s) (realm s) in
      {| userId := newId; realm := render_body newId w |}
  | Rerender =>
      {| userId := userId s; realm := render_body (userId s) (realm s) |}
  | Wait dt => {| userId := userId s; realm := advance dt (realm s) |}
  end.

Definition is_click (ev : Event) : bool :=
  match ev with Click => true | _ => false end.

(** The caches of a mounted demo hold the users from 1 to the current
    one. *)
Definition holds_users (s : Mounted) (clicks : nat) : Prop :=
  userId s = (1 + Z.of_nat clicks)%Z
  ∧ (∀ k, is_Some (userCache (realm s) !! k) ↔ (1 ≤ k ≤ userId s)%Z)
  ∧ (∀ k, is_Some (postsCache (realm s) !! k) ↔ (1 ≤ k ≤ userId s)%Z)
  ∧ size (userCache (realm s)) = Datatypes.S clicks
  ∧ size (postsCache (realm s)) = Datatypes.S clicks.

End SuspenseSession.

(** ** More vocabulary *)

Module MoreEffects.
Import History Effects.

(** Does the operation assign [null] to [serverDataCache]? *)
Definition resets (o : Op) : bool :=
  match o with ResetServerData => true | _ => false end.

(** Every cached promise is fulfilled at the latest one full delay from
    now. *)
Definition caches_due (w : World) : Prop :=
  (∀ k p, userCache w !! k = Some p →
          ∃ d, (d ≤ now w + 1500)%N ∧ timed p (VUser (user_of k)) d w)
  ∧ (∀ k p, postsCache w !! k = Some p →
            ∃ d, (d ≤ now w + 2000)%N ∧ timed p (VPosts (posts_of k)) d w).

End MoreEffects.

(** ** Navigating the gallery *)

Module Navigation.
Import ViewTransitionsDemo.

(** What the user can do in the gallery: click the card of an item, or
    click the back button of the detail view. *)
Inductive Action :=
| Select (item : Item)
| Back.

(** The handler the click runs. *)
Definition handler (document : Document) (a : Action) : list Cmd :=
  match a with
  | Select item => handleSelect document item
  | Back => handleBack document
  end.

(** The value the handler passes to [setSelectedItem]. *)
Definition target (a : Action) : option Item :=
  match a with
  | Select item => Some item
  | Back => None
  end.

(** A click, and React's turn after it. *)
Definition act (document : Document) (s : Screen) (a : Action) : Screen :=
  react_turn (run_handler (handler document a) s).

(** The pairs of consecutive views along a sequence of clicks. *)
Fixpoint transitions (from : option Item) (actions : list Action)
  : list (option Item * option Item) :=
  match actions with
  | [] => []
  | a :: actions' => (from, target a) :: transitions (target a) actions'
  end.

End Navigation.

(** ** The SSR middleware (server.tsx) *)

Module Server.
Import Stdlib.Strings.Ascii.
Import EntryServer.

(** *** [String.prototype.replace] with a string pattern

    The middleware calls [replace] three times, each time with a string as
    the pattern.  JavaScript then replaces the first occurrence only, and
    reads the replacement as a template in which [$$], [$&], [$`] and
    [$'] stand for a dollar sign, the matched text, the text before the
    match and the text after it.  With a string pattern there are no
    captures, so every other [$] stands for itself. *)

(** [s] without its prefix [p], if [s] starts with [p]. *)
Fixpoint strip_prefix (p s : string) : option string :=
  match p, s with
  | EmptyString, _ => Some s
  | String a p', String b s' =>
      if Ascii.eqb a b then strip_prefix p' s' else None
  | String _ _, EmptyString => None
  end.

(** The text before and the text after the first occurrence of [p] in
    [s]. *)
Fixpoint split_at_first (p s : string) : option (string * string) :=
  match strip_prefix p s with
  | Some after => Some (EmptyString, after)
  | None =>
      match s with
      | EmptyString => None
      | String c s' =>
          match split_at_first p s' with
          | Some (before, after) => Some (String c before, after)
          | None => None
          end
      end
  end.

(** The characters that make a replacement pattern with the [$] before
    them. *)
Definition special (c : ascii) : bool :=
  Ascii.eqb c "$"%char || Ascii.eqb c "&"%char
  || Ascii.eqb c "`"%char || Ascii.eqb c "'"%char.

(** The text a replacement template stands for at a match. *)
Fixpoint substitution (matched before after replacement : string)
  : string :=
  match replacement with
  | EmptyString => EmptyString
  | String c r =>
      if Ascii.eqb c "$"%char then
        match r with
        | String d r' =>
            if Ascii.eqb d "$"%char then
              String "$"%char (substitution matched before after r')
            else if Ascii.eqb d "&"%char then
              matched +:+ substitution matched before after r'
            else if Ascii.eqb d "`"%char then
              before +:+ substitution matched before after r'
            else if Ascii.eqb d "'"%char then
              after +:+ substitution matched before after r'
            else String "$"%char (substitution matched before after r)
        | EmptyString => String "$"%char EmptyString
        end
      else String c (substitution matched before after r)
  end.

(** [s.replace(pattern, replacement)] *)
Definition replace (pattern replacement s : string) : string :=
  match split_at_first pattern s with
  | Some (before, after) =>
      before +:+ substitution pattern before after replacement +:+ after
  | None => s
  end.

(** A replacement without replacement patterns: no [$] is followed by a
    special character. *)
Fixpoint plain (r : string) : bool :=
  match r with
  | EmptyString => true
  | String c r' =>
      if Ascii.eqb c "$"%char then
        match r' with
        | String d _ => negb (special d) && plain r'
        | EmptyString => true
        end
      else plain r'
  end.

(** *** The middleware *)

(** An awaited promise of the environment: fulfilled with a value, or
    rejected with an error. *)
Inductive Loaded (A : Type) :=
| Fulfils (a : A)
| Rejects (error : string).

Arguments Fulfils {A} a.
Arguments Rejects {A} error.

(** What the middleware finds around it: the constants of the process
    ([isProduction], [base], and [templateHtml] and [ssrManifest] as
    read at start), the file system, Vite, and the loader of modules.
    A module that loads is the server entry of this repository. *)
Record Environment := mkEnvironment {
  isProduction : bool;
  base : string;
  templateHtml : string;
  ssrManifest : option string;
  readFile : string → Loaded string;
  transformIndexHtml : string → string → Loaded string;
  ssrLoadModule : string → Loaded unit;
  importModule : string → Loaded unit
}.

(** What [res] has been told to send. *)
Record Response := mkResponse {
  status : Z;
  headers : list (string * string);
  body : string
}.

Section Middleware.

(** The string React writes for a markup, and the [stack] of an error. *)
Variable write : list Html → string.
Variable stack : string → string.

(** [rendered.name ?? ""] *)
Definition property (rendered : gmap string (list Html)) (name : string)
  : string :=
  default "" (write <$> rendered !! name).

(** The two replacements, [app-head] first. *)
Definition inject (template : string)
    (rendered : gmap string (list Html)) : string :=
  replace "<!--app-html-->" (property rendered "html")
    (replace "<!--app-head-->" (property rendered "head") template).

(** The middleware from the call of [render] on, once its loading steps
    have succeeded: for the [base] of the process, the [template] and
    the [ssrManifest] that either branch has loaded, and the
    [originalUrl] of the request.  Whatever is thrown ends in the
    [catch]; a thrown promise has no [stack].  The loading steps before
    it are [load], and the whole is [middleware]. *)
Definition handle (base template : string) (ssrManifest : option string)
    (originalUrl : string) : M Response :=
  λ w,
    let url := replace base "" originalUrl in
    match render url ssrManifest w with
    | (Done rendered, w') =>
        ({| status := 200;
            headers := [("Content-Type", "text/html")];
            body := inject template rendered |}, w')
    | (Thrown e, w') =>
        ({| status := 500; headers := []; body := stack e |}, w')
    | (Suspended _, w') =>
        ({| status := 500; headers := []; body := "" |}, w')
    end.

(** The steps of the [try] block before the call of [render]: in
    development the template is read and transformed for the URL and the
    module is loaded through Vite; in production the template is the one
    read at start and the module is imported.  The first step that
    rejects ends them. *)
Definition load (env : Environment) (url : string) : Loaded string :=
  if isProduction env then
    match importModule env "./dist/server/entry-server.js" with
    | Rejects e => Rejects e
    | Fulfils _ => Fulfils (templateHtml env)
    end
  else
    match readFile env "./index.html" with
    | Rejects e => Rejects e
    | Fulfils template =>
        match transformIndexHtml env url template with
        | Rejects e => Rejects e
        | Fulfils template' =>
            match ssrLoadModule env "/src/entry-server.tsx" with
            | Rejects e => Rejects e
            | Fulfils _ => Fulfils template'
            end
        end
    end.

(** The middleware, [try] and [catch].  The realm is the one in which
    [render] is called. *)
Definition middleware (env : Environment) (originalUrl : string)
  : M Response :=
  λ w,
    let url := replace (base env) "" originalUrl in
    match load env url with
    | Rejects e => ({| status := 500; headers := []; body := stack e |}, w)
    | Fulfils template =>
        handle (base env) template (ssrManifest env) originalUrl w
    end.

End Middleware.

End Server.

(** * Theorems *)

Import SuspenseDemo ServerComponentsDemo History Effects.

(** ** What one call of a fetch simulator does to the realm *)

Section FetchEffects.

Lemma fetchUser_eq id w :
  fetchUser id w = (next_promise w, with_fetch 1500 (VUser (user_of id)) w).
Proof. reflexivity. Qed.

Lemma fetchPosts_eq id w :
  fetchPosts id w = (next_promise w, with_fetch 2000 (VPosts (posts_of id)) w).
Proof. reflexivity. Qed.

Lemma fetchServerData_eq w :
  fetchServerData w = (next_promise w, with_server_fetch w).
Proof.
  unfold fetchServerData, await, mbind, M_bind, gets, modify, mret, M_ret.
  simpl. by rewrite lookup_insert_eq.
Qed.

Lemma getServerData_hit q w :
  serverDataCache w = Some q → getServerData w = (Some q, w).
Proof.
  intros H. unfold getServerData, mbind, M_bind, gets, mret, M_ret.
  rewrite H. simpl. by rewrite H.
Qed.

Lemma getServerData_miss w :
  serverDataCache w = None →
  getServerData w =
    (Some (next_promise w),
     set_serverDataCache (λ _, Some (next_promise w)) (with_server_fetch w)).
Proof.
  intros H. unfold getServerData. unfold mbind at 1 2, M_bind, gets.
  rewrite H. simpl. unfold mbind, M_bind. by rewrite fetchServerData_eq.
Qed.

End FetchEffects.

(** ** Running callbacks stays within the frame *)

Section Frame.

Lemma frame_refl w : frame w w.
Proof. by repeat split. Qed.

Lemma frame_trans w1 w2 w3 : frame w1 w2 → frame w2 w3 → frame w1 w3.
Proof.
  intros (a1 & b1 & c1 & d1 & e1 & f1 & g1 & h1 & i1 & j1)
         (a2 & b2 & c2 & d2 & e2 & f2 & g2 & h2 & i2 & j2).
  repeat split; try congruence; auto.
  - intros H. by apply e1, e2.
  - intros H. by apply e2, e1.
Qed.

Lemma frame_queued w w' t : frame w w' → t ∈ queued w' → t ∈ queued w.
Proof. intros (_ & _ & _ & _ & _ & _ & _ & H & _). apply H. Qed.

Lemma frame_reactions w w' r :
  frame w w' → r ∈ reactions w' → r ∈ reactions w.
Proof. intros (_ & _ & _ & _ & _ & _ & H & _). apply H. Qed.

Lemma frame_settled w w' p v :
  frame w w' →
  promises w !! p = Some (Fulfilled v) →
  promises w' !! p = Some (Fulfilled v).
Proof. intros (_ & _ & _ & _ & _ & _ & _ & _ & H & _). apply H. Qed.

Lemma frame_no_rejection w w' :
  frame w w' → no_rejection w → no_rejection w'.
Proof.
  intros (_ & _ & _ & _ & _ & _ & _ & _ & _ & H) Hno p r Hp.
  by apply (Hno p r), H.
Qed.

Lemma fulfil_timers p v w : timers (fulfil p v w) = timers w.
Proof. unfold fulfil. by destruct (promises w !! p) as [[]|]. Qed.

Lemma fulfil_now p v w : now (fulfil p v w) = now w.
Proof. unfold fulfil. by destruct (promises w !! p) as [[]|]. Qed.

Lemma fulfil_frame p v w : frame w (fulfil p v w).
Proof.
  unfold fulfil. destruct (promises w !! p) as [[]|] eqn:E;
    try apply frame_refl.
  repeat split; simpl; try done.
  - intros H. destruct (decide (p0 = p)) as [->|Hne].
    + by rewrite lookup_insert_eq in H.
    + by rewrite lookup_insert_ne in H.
  - intros H. destruct (decide (p0 = p)) as [->|Hne]; [congruence|].
    by rewrite lookup_insert_ne.
  - intros r Hr. by apply list_elem_of_filter in Hr as [_ Hr].
  - intros t. unfold queued. simpl. rewrite !elem_of_app, !list_elem_of_fmap.
    intros [(r & -> & Hr)|[Ht|(r & -> & Hr)]].
    + apply list_elem_of_filter in Hr as [_ Hr]. left. eauto.
    + by right.
    + apply list_elem_of_filter in Hr as [_ Hr]. left. eauto.
  - intros p0 v0 H. rewrite lookup_insert_ne; [done|congruence].
  - intros p0 r. destruct (decide (p = p0)) as [->|Hne].
    + by rewrite lookup_insert_eq.
    + by rewrite lookup_insert_ne.
Qed.

Lemma pop_frame t rest w :
  microtasks w = t :: rest → frame w (set_microtasks (λ _, rest) w).
Proof.
  intros E. repeat split; simpl; try done.
  intros t'. unfold queued. simpl. rewrite E, !elem_of_app, elem_of_cons.
  tauto.
Qed.

Lemma drain_timers n w : timers (drain n w) = timers w.
Proof.
  revert w. induction n as [|n IH]; intros w; simpl; [done|].
  destruct (microtasks w) as [|[p v] rest]; [done|].
  rewrite IH. simpl. by rewrite fulfil_timers.
Qed.

Lemma drain_now n w : now (drain n w) = now w.
Proof.
  revert w. induction n as [|n IH]; intros w; simpl; [done|].
  destruct (microtasks w) as [|[p v] rest]; [done|].
  rewrite IH. simpl. by rewrite fulfil_now.
Qed.

Lemma drain_frame n w : frame w (drain n w).
Proof.
  revert w. induction n as [|n IH]; intros w; simpl; [apply frame_refl|].
  destruct (microtasks w) as [|[p v] rest] eqn:E; [apply frame_refl|].
  eapply frame_trans; [|apply IH].
  eapply frame_trans; [|apply fulfil_frame]. by eapply pop_frame.
Qed.

Lemma run_microtasks_frame w : frame w (run_microtasks w).
Proof. apply drain_frame. Qed.

Lemma macrotask_frame t w : frame w (macrotask t w).
Proof.
  unfold macrotask, run_microtasks.
  eapply frame_trans; [|apply drain_frame]. destruct t. apply fulfil_frame.
Qed.

Lemma macrotask_timers t w : timers (macrotask t w) = timers w.
Proof.
  unfold macrotask, run_microtasks. rewrite drain_timers.
  destruct t. apply fulfil_timers.
Qed.

Lemma macrotask_now t w : now (macrotask t w) = now w.
Proof.
  unfold macrotask, run_microtasks. rewrite drain_now.
  destruct t. apply fulfil_now.
Qed.

Lemma fire_frame due w :
  frame w (fire due w).
Proof.
  revert w. induction due as [|x due IH]; intros w; simpl;
    [apply frame_refl|].
  eapply frame_trans; [apply macrotask_frame|apply IH].
Qed.

Lemma fire_timers due w :
  timers (fire due w) = timers w.
Proof.
  revert w. induction due as [|x due IH]; intros w; simpl; [done|].
  by rewrite IH, macrotask_timers.
Qed.

Lemma fire_now due w :
  now (fire due w) = now w.
Proof.
  revert w. induction due as [|x due IH]; intros w; simpl; [done|].
  by rewrite IH, macrotask_now.
Qed.

Lemma advance_frame dt w : frame w (advance dt w).
Proof.
  unfold advance. eapply frame_trans; [|apply fire_frame].
  repeat split; simpl; try done.
  intros x Hx. by apply list_elem_of_filter in Hx as [_ Hx].
Qed.

Lemma advance_now dt w : now (advance dt w) = (now w + dt)%N.
Proof. unfold advance. by rewrite fire_now. Qed.

Lemma advance_timers dt w :
  timers (advance dt w)
  = filter (λ x, ¬ (x.1 ≤ now w + dt)%N) (timers w).
Proof. unfold advance. by rewrite fire_timers. Qed.

(** Whatever callbacks run, the realm stays allocated. *)
Lemma frame_allocated w w' : frame w w' → allocated w → allocated w'.
Proof.
  intros (a & b & c & d & e & f & g & h & _)
    (A1 & A2 & A3 & A4 & A5 & A6 & A7).
  unfold allocated. rewrite a, b, c, d.
  repeat split; auto.
  intros p Hp. apply e. auto.
Qed.

End Frame.

(** ** The two outcomes of a cache lookup *)

Section CacheLookup.

Lemma getUserPromise_hit k p w :
  userCache w !! k = Some p → getUserPromise k w = (Some p, w).
Proof.
  intros H. unfold getUserPromise, mbind, M_bind, gets, mret, M_ret.
  rewrite H. rewrite bool_decide_eq_true_2 by eauto. simpl. by rewrite H.
Qed.

Lemma getPostsPromise_hit k p w :
  postsCache w !! k = Some p → getPostsPromise k w = (Some p, w).
Proof.
  intros H. unfold getPostsPromise, mbind, M_bind, gets, mret, M_ret.
  rewrite H. rewrite bool_decide_eq_true_2 by eauto. simpl. by rewrite H.
Qed.

(** On a miss the lookup allocates the next promise, schedules its timer
    and stores it. *)
Lemma getUserPromise_miss k w :
  userCache w !! k = None →
  getUserPromise k w =
    (Some (next_promise w),
     set_userCache <[k := next_promise w]> (fetchUser k w).2).
Proof.
  intros H. unfold getUserPromise, mbind, M_bind, gets, mret, M_ret.
  rewrite H. rewrite bool_decide_eq_false_2 by (intros [? ?]; done).
  simpl. by rewrite lookup_insert_eq.
Qed.

Lemma getPostsPromise_miss k w :
  postsCache w !! k = None →
  getPostsPromise k w =
    (Some (next_promise w),
     set_postsCache <[k := next_promise w]> (fetchPosts k w).2).
Proof.
  intros H. unfold getPostsPromise, mbind, M_bind, gets, mret, M_ret.
  rewrite H. rewrite bool_decide_eq_false_2 by (intros [? ?]; done).
  simpl. by rewrite lookup_insert_eq.
Qed.

End CacheLookup.

(** ** Every operation keeps the realm allocated *)

Section Allocation.

Lemma elem_of_insert_timer (x t : N * Task) ts :
  x ∈ insert_timer t ts ↔ x = t ∨ x ∈ ts.
Proof.
  induction ts as [|t' ts IH]; simpl.
  - rewrite list_elem_of_singleton, elem_of_nil. tauto.
  - destruct (t.1 <? t'.1)%N.
    + by rewrite elem_of_cons.
    + rewrite !elem_of_cons, IH. tauto.
Qed.

Lemma initial_allocated : allocated initial.
Proof.
  unfold allocated, queued. simpl. repeat split; intros; try done.
  all: exfalso; eapply not_elem_of_nil; eassumption.
Qed.

Lemma with_fetch_allocated d v w :
  allocated w → allocated (with_fetch d v w).
Proof.
  intros (A1 & A2 & A3 & A4 & A5 & A6 & A7).
  repeat split; simpl.
  - intros p Hp. rewrite lookup_insert_ne by lia. apply A1. lia.
  - intros x Hx. apply elem_of_insert_timer in Hx as [->|Hx]; simpl; [lia|].
    specialize (A2 _ Hx). lia.
  - intros r Hr. specialize (A3 _ Hr). lia.
  - intros t Ht. specialize (A4 _ Ht). lia.
  - intros k p Hk. specialize (A5 _ _ Hk). lia.
  - intros k p Hk. specialize (A6 _ _ Hk). lia.
  - intros p Hp. specialize (A7 _ Hp). lia.
Qed.

Lemma with_server_fetch_allocated w :
  allocated w → allocated (with_server_fetch w).
Proof.
  intros (A1 & A2 & A3 & A4 & A5 & A6 & A7).
  repeat split; simpl.
  - intros p Hp. rewrite !lookup_insert_ne by lia. apply A1. lia.
  - intros x Hx. apply elem_of_insert_timer in Hx as [->|Hx]; simpl; [lia|].
    specialize (A2 _ Hx). lia.
  - intros r Hr. apply elem_of_app in Hr as [Hr|Hr].
    + specialize (A3 _ Hr). lia.
    + apply list_elem_of_singleton in Hr as ->. simpl. lia.
  - intros t. unfold queued. simpl. rewrite fmap_app. simpl.
    rewrite !elem_of_app, list_elem_of_singleton.
    intros [[Ht| ->]|Ht]; simpl; [|lia|].
    + assert (t ∈ queued w) as Hq by (apply elem_of_app; by left).
      specialize (A4 _ Hq). lia.
    + assert (t ∈ queued w) as Hq by (apply elem_of_app; by right).
      specialize (A4 _ Hq). lia.
  - intros k p Hk. specialize (A5 _ _ Hk). lia.
  - intros k p Hk. specialize (A6 _ _ Hk). lia.
  - intros p Hp. specialize (A7 _ Hp). lia.
Qed.

Lemma perform_allocated o w : allocated w → allocated (perform o w).
Proof.
  intros A. destruct o as [id|id|id|id|uid| | |dt]; simpl.
  - destruct (userCache w !! id) as [q|] eqn:E.
    + by rewrite (getUserPromise_hit _ _ _ E).
    + rewrite (getUserPromise_miss _ _ E). simpl.
      destruct (with_fetch_allocated 1500 (VUser (user_of id)) w A)
        as (A1 & A2 & A3 & A4 & A5 & A6 & A7).
      repeat split; try done.
      intros k p. simpl. destruct (decide (id = k)) as [->|Hne].
      * rewrite lookup_insert_eq. intros [= <-]. lia.
      * rewrite lookup_insert_ne by done. apply A5.
  - destruct (postsCache w !! id) as [q|] eqn:E.
    + by rewrite (getPostsPromise_hit _ _ _ E).
    + rewrite (getPostsPromise_miss _ _ E). simpl.
      destruct (with_fetch_allocated 2000 (VPosts (posts_of id)) w A)
        as (A1 & A2 & A3 & A4 & A5 & A6 & A7).
      repeat split; try done.
      intros k p. simpl. destruct (decide (id = k)) as [->|Hne].
      * rewrite lookup_insert_eq. intros [= <-]. lia.
      * rewrite lookup_insert_ne by done. apply A6.
  - destruct A as (A1 & A2 & A3 & A4 & A5 & A6 & A7).
    repeat split; try done. simpl. intros k p Hk.
    apply lookup_delete_Some in Hk as [_ Hk]. eauto.
  - destruct A as (A1 & A2 & A3 & A4 & A5 & A6 & A7).
    repeat split; try done. simpl. intros k p Hk.
    apply lookup_delete_Some in Hk as [_ Hk]. eauto.
  - destruct A as (A1 & A2 & A3 & A4 & A5 & A6 & A7).
    repeat split; try done; simpl; intros k p Hk;
      apply lookup_delete_Some in Hk as [_ Hk]; eauto.
  - destruct (serverDataCache w) as [q|] eqn:E.
    + by rewrite (getServerData_hit _ _ E).
    + rewrite (getServerData_miss _ E). simpl.
      destruct (with_server_fetch_allocated w A)
        as (A1 & A2 & A3 & A4 & A5 & A6 & A7).
      repeat split; try done. simpl. intros p [= <-]. lia.
  - destruct A as (A1 & A2 & A3 & A4 & A5 & A6 & A7).
    by repeat split.
  - eapply frame_allocated; [apply advance_frame|done].
Qed.

Lemma exec_allocated o w : allocated w → allocated (exec o w).
Proof.
  intros A. unfold exec.
  eapply frame_allocated; [apply run_microtasks_frame|].
  by apply perform_allocated.
Qed.

Lemma run_allocated os w : allocated w → allocated (run os w).
Proof.
  revert w. induction os as [|o os IH]; intros w A; [done|].
  simpl. by apply IH, exec_allocated.
Qed.

(** The allocation pointer never moves back. *)
Lemma perform_next_promise o w : next_promise w ≤ next_promise (perform o w).
Proof.
  destruct o as [id|id|id|id|uid| | |dt]; simpl; try done.
  - destruct (userCache w !! id) as [q|] eqn:E.
    + by rewrite (getUserPromise_hit _ _ _ E).
    + rewrite (getUserPromise_miss _ _ E). simpl. lia.
  - destruct (postsCache w !! id) as [q|] eqn:E.
    + by rewrite (getPostsPromise_hit _ _ _ E).
    + rewrite (getPostsPromise_miss _ _ E). simpl. lia.
  - destruct (serverDataCache w) as [q|] eqn:E.
    + by rewrite (getServerData_hit _ _ E).
    + rewrite (getServerData_miss _ E). simpl. lia.
  - by rewrite (proj1 (advance_frame dt w)).
Qed.

Lemma run_next_promise os w : next_promise w ≤ next_promise (run os w).
Proof.
  revert w. induction os as [|o os IH]; intros w; [done|].
  simpl. etrans; [|apply IH]. unfold exec.
  rewrite (proj1 (run_microtasks_frame _)). apply perform_next_promise.
Qed.

End Allocation.

(** ** The promise caches *)

Section PromiseCache.

(** After a lookup the key is cached, and a second lookup changes
    nothing. *)
Lemma getUserPromise_cached k w :
  ∃ p, (getUserPromise k w).1 = Some p
       ∧ userCache (getUserPromise k w).2 !! k = Some p.
Proof.
  destruct (userCache w !! k) as [p|] eqn:E.
  - exists p. by rewrite (getUserPromise_hit _ _ _ E).
  - exists (next_promise w). rewrite (getUserPromise_miss _ _ E). simpl.
    by rewrite lookup_insert_eq.
Qed.

Lemma getPostsPromise_cached k w :
  ∃ p, (getPostsPromise k w).1 = Some p
       ∧ postsCache (getPostsPromise k w).2 !! k = Some p.
Proof.
  destruct (postsCache w !! k) as [p|] eqn:E.
  - exists p. by rewrite (getPostsPromise_hit _ _ _ E).
  - exists (next_promise w). rewrite (getPostsPromise_miss _ _ E). simpl.
    by rewrite lookup_insert_eq.
Qed.

(** An operation that does not evict [k] keeps a live entry of [k]. *)
Lemma perform_keeps_user k p o w :
  evicts_user k o = false →
  userCache w !! k = Some p → userCache (perform o w) !! k = Some p.
Proof.
  intros Hev Hk. destruct o as [id|id|id|id|uid| | |dt]; simpl in *.
  - destruct (decide (id = k)) as [->|Hne].
    + by rewrite (getUserPromise_hit _ _ _ Hk).
    + destruct (userCache w !! id) as [q|] eqn:E.
      * by rewrite (getUserPromise_hit _ _ _ E).
      * rewrite (getUserPromise_miss _ _ E). simpl.
        by rewrite lookup_insert_ne.
  - destruct (postsCache w !! id) as [q|] eqn:E.
    + by rewrite (getPostsPromise_hit _ _ _ E).
    + by rewrite (getPostsPromise_miss _ _ E).
  - apply bool_decide_eq_false in Hev. by rewrite lookup_delete_ne.
  - done.
  - apply bool_decide_eq_false in Hev. by rewrite lookup_delete_ne.
  - destruct (serverDataCache w) as [q|] eqn:E.
    + by rewrite (getServerData_hit _ _ E).
    + by rewrite (getServerData_miss _ E).
  - done.
  - by rewrite (proj1 (proj2 (advance_frame dt w))).
Qed.

Lemma perform_keeps_posts k p o w :
  evicts_posts k o = false →
  postsCache w !! k = Some p → postsCache (perform o w) !! k = Some p.
Proof.
  intros Hev Hk. destruct o as [id|id|id|id|uid| | |dt]; simpl in *.
  - destruct (userCache w !! id) as [q|] eqn:E.
    + by rewrite (getUserPromise_hit _ _ _ E).
    + by rewrite (getUserPromise_miss _ _ E).
  - destruct (decide (id = k)) as [->|Hne].
    + by rewrite (getPostsPromise_hit _ _ _ Hk).
    + destruct (postsCache w !! id) as [q|] eqn:E.
      * by rewrite (getPostsPromise_hit _ _ _ E).
      * rewrite (getPostsPromise_miss _ _ E). simpl.
        by rewrite lookup_insert_ne.
  - done.
  - apply bool_decide_eq_false in Hev. by rewrite lookup_delete_ne.
  - apply bool_decide_eq_false in Hev. by rewrite lookup_delete_ne.
  - destruct (serverDataCache w) as [q|] eqn:E.
    + by rewrite (getServerData_hit _ _ E).
    + by rewrite (getServerData_miss _ E).
  - done.
  - by rewrite (proj1 (proj2 (proj2 (advance_frame dt w)))).
Qed.

Lemma run_keeps_user k p os w :
  forallb (λ o, negb (evicts_user k o)) os = true →
  userCache w !! k = Some p → userCache (run os w) !! k = Some p.
Proof.
  revert w. induction os as [|o os IH]; intros w Hev Hk; [done|].
  simpl in Hev. apply andb_true_iff in Hev as [Ho Hos].
  apply negb_true_iff in Ho. simpl. apply IH; [done|].
  unfold exec. rewrite (proj1 (proj2 (run_microtasks_frame _))).
  by apply perform_keeps_user.
Qed.

Lemma run_keeps_posts k p os w :
  forallb (λ o, negb (evicts_posts k o)) os = true →
  postsCache w !! k = Some p → postsCache (run os w) !! k = Some p.
Proof.
  revert w. induction os as [|o os IH]; intros w Hev Hk; [done|].
  simpl in Hev. apply andb_true_iff in Hev as [Ho Hos].
  apply negb_true_iff in Ho. simpl. apply IH; [done|].
  unfold exec. rewrite (proj1 (proj2 (proj2 (run_microtasks_frame _)))).
  by apply perform_keeps_posts.
Qed.

(** C1. For every key [k], a lookup of [k] followed -- after any history
    that does not evict [k] from that cache, the empty one in particular
    -- by a second lookup of [k] returns the same promise object, and the
    second lookup leaves the whole realm unchanged: it allocates no
    promise and starts no timer.  This holds for [getUserPromise] and for
    [getPostsPromise]. *)
Theorem cache_lookup_idempotent (k : Z) (w : World) (os : list Op) :
  (forallb (λ o, negb (evicts_user k o)) os = true →
   ∃ p, (getUserPromise k w).1 = Some p
        ∧ getUserPromise k (run os (getUserPromise k w).2)
          = (Some p, run os (getUserPromise k w).2))
  ∧ (forallb (λ o, negb (evicts_posts k o)) os = true →
     ∃ p, (getPostsPromise k w).1 = Some p
          ∧ getPostsPromise k (run os (getPostsPromise k w).2)
            = (Some p, run os (getPostsPromise k w).2)).
Proof.
  split; intros Hev.
  - destruct (getUserPromise_cached k w) as (p & Hp & Hc).
    exists p. split; [done|].
    apply getUserPromise_hit. by apply run_keeps_user.
  - destruct (getPostsPromise_cached k w) as (p & Hp & Hc).
    exists p. split; [done|].
    apply getPostsPromise_hit. by apply run_keeps_posts.
Qed.

(** C2. Take any history of the program, [w0] a realm on the way and [w]
    the realm at its end.  Evicting [k] at [w] cannot fail: it is a total
    function that reports whether an entry was there.  The lookup of [k]
    that follows returns a promise [p'] that is a new object -- its
    address holds no promise in [w], and it differs from every promise
    that was cached under [k] at [w0] -- and the fetch simulation is
    started again: [p'] is pending and a timer with the full delay will
    resolve it with the payload of [k].  This holds for [userCache] with
    [getUserPromise] and for [postsCache] with [getPostsPromise]. *)
Theorem lookup_after_evict_is_fresh (k : Z) (os0 os : list Op) :
  let w0 := run os0 initial in
  let w := run os w0 in
  (let e := userCache_delete k w in
   let r := getUserPromise k e.2 in
   e.1 = bool_decide (is_Some (userCache w !! k))
   ∧ ∃ p', r.1 = Some p'
       ∧ promises w !! p' = None
       ∧ (∀ p, userCache w0 !! k = Some p → p ≠ p')
       ∧ promises r.2 !! p' = Some Pending
       ∧ ((now w + 1500)%N, Resolve p' (VUser (user_of k))) ∈ timers r.2)
  ∧ (let e := postsCache_delete k w in
     let r := getPostsPromise k e.2 in
     e.1 = bool_decide (is_Some (postsCache w !! k))
     ∧ ∃ p', r.1 = Some p'
         ∧ promises w !! p' = None
         ∧ (∀ p, postsCache w0 !! k = Some p → p ≠ p')
         ∧ promises r.2 !! p' = Some Pending
         ∧ ((now w + 2000)%N, Resolve p' (VPosts (posts_of k))) ∈ timers r.2).
Proof.
  intros w0 w.
  assert (allocated w0) as A0 by apply run_allocated, initial_allocated.
  assert (allocated w) as A by by apply run_allocated.
  assert (next_promise w0 ≤ next_promise w) as Hle
    by apply run_next_promise.
  destruct A0 as (_ & _ & _ & _ & U0 & P0 & _).
  destruct A as (A1 & _).
  split.
  - intros e r. split; [done|]. exists (next_promise w).
    assert (userCache e.2 !! k = None) as Hnone
      by (simpl; apply lookup_delete_eq).
    subst r. rewrite (getUserPromise_miss _ _ Hnone). simpl.
    repeat split.
    + apply A1. lia.
    + intros p Hp. specialize (U0 _ _ Hp). lia.
    + by rewrite lookup_insert_eq.
    + apply elem_of_insert_timer. by left.
  - intros e r. split; [done|]. exists (next_promise w).
    assert (postsCache e.2 !! k = None) as Hnone
      by (simpl; apply lookup_delete_eq).
    subst r. rewrite (getPostsPromise_miss _ _ Hnone). simpl.
    repeat split.
    + apply A1. lia.
    + intros p Hp. specialize (P0 _ _ Hp). lia.
    + by rewrite lookup_insert_eq.
    + apply elem_of_insert_timer. by left.
Qed.

Example evict_then_lookup :
  let w := run [GetUser 2; Advance 100] initial in
  userCache w !! 2%Z = Some 0
  ∧ getUserPromise 2 w = (Some 0, w)
  ∧ (getUserPromise 2 (userCache_delete 2 w).2).1 = Some 1
  ∧ timers (getUserPromise 2 (userCache_delete 2 w).2).2
    = [ (1500%N, Resolve 0 (VUser (user_of 2)));
        (1600%N, Resolve 1 (VUser (user_of 2))) ].
Proof. repeat split; by vm_compute. Qed.

(** [handleChangeUser] evicts the next user from both caches, so the
    render that follows it starts both simulations again. *)
Lemma handleChangeUser_evicts userId w :
  let r := handleChangeUser userId w in
  r.1 = (userId + 1)%Z
  ∧ userCache r.2 !! r.1 = None
  ∧ postsCache r.2 !! r.1 = None.
Proof.
  simpl. repeat split; apply lookup_delete_eq.
Qed.

End PromiseCache.

(** ** How callbacks settle promises *)

Section Settling.

Lemma fulfil_lookup_ne p' v' p w :
  p' ≠ p → promises (fulfil p' v' w) !! p = promises w !! p.
Proof.
  intros Hne. unfold fulfil. destruct (promises w !! p') as [[]|]; try done.
  simpl. by rewrite lookup_insert_ne.
Qed.

Lemma fulfil_lookup_pending p v w :
  promises w !! p = Some Pending →
  promises (fulfil p v w) !! p = Some (Fulfilled v).
Proof.
  intros H. unfold fulfil. rewrite H. simpl. by rewrite lookup_insert_eq.
Qed.

Lemma fulfil_reactions_ne p' v' r w :
  r ∈ reactions w → r.1 ≠ p' → r ∈ reactions (fulfil p' v' w).
Proof.
  intros Hr Hne. unfold fulfil. destruct (promises w !! p') as [[]|]; try done.
  simpl. by apply list_elem_of_filter.
Qed.

Lemma fulfil_microtasks p' v' t w :
  t ∈ microtasks (fulfil p' v' w) →
  t ∈ microtasks w ∨ (p', t) ∈ reactions w.
Proof.
  unfold fulfil. destruct (promises w !! p') as [[]|]; auto.
  simpl. rewrite elem_of_app, list_elem_of_fmap.
  intros [Ht|([p0 t0] & -> & Hr)]; [by left|right].
  apply list_elem_of_filter in Hr as [Hp Hr]. simpl in *. by subst.
Qed.

Lemma fulfil_moves p v t w :
  promises w !! p = Some Pending →
  (p, t) ∈ reactions w → t ∈ microtasks (fulfil p v w).
Proof.
  intros H Hr. unfold fulfil. rewrite H. simpl.
  apply elem_of_app. right. apply list_elem_of_fmap. exists (p, t).
  split; [done|]. by apply list_elem_of_filter.
Qed.

Lemma fulfil_microtasks_app p v w :
  ∃ extra, microtasks (fulfil p v w) = microtasks w ++ extra.
Proof.
  unfold fulfil. destruct (promises w !! p) as [[]|];
    try (exists []; by rewrite app_nil_r).
  simpl. eauto.
Qed.

(** A promise nobody in the queue targets keeps its state through a
    microtask checkpoint. *)
Lemma drain_untouched p n w :
  (∀ t, t ∈ queued w → target t ≠ p) →
  promises (drain n w) !! p = promises w !! p.
Proof.
  revert w. induction n as [|n IH]; intros w Hq; simpl; [done|].
  destruct (microtasks w) as [|[p' v'] rest] eqn:E; [done|].
  rewrite IH; simpl.
  - rewrite fulfil_lookup_ne; [done|].
    apply (Hq (Resolve p' v')). unfold queued. rewrite E.
    apply elem_of_app. right. by left.
  - intros t Ht. apply Hq. revert Ht. apply frame_queued.
    eapply frame_trans; [by eapply pop_frame|apply fulfil_frame].
Qed.

(** A queued microtask that resolves a pending promise does fulfil it,
    provided every queued callback for that promise carries the same
    value. *)
Lemma drain_runs q v n i w :
  i < n →
  microtasks w !! i = Some (Resolve q v) →
  promises w !! q = Some Pending →
  (∀ t, t ∈ queued w → target t = q → t = Resolve q v) →
  promises (drain n w) !! q = Some (Fulfilled v).
Proof.
  revert i w. induction n as [|n IH]; intros i w Hi Hl Hp Hsole; [lia|].
  simpl. destruct (microtasks w) as [|[p' v'] rest] eqn:E; [done|].
  assert (∀ t, t ∈ queued (fulfil p' v' (set_microtasks (λ _, rest) w)) →
               t ∈ queued w) as Hsub.
  { intros t. apply frame_queued.
    eapply frame_trans; [by eapply pop_frame|apply fulfil_frame]. }
  destruct (decide (p' = q)) as [->|Hne].
  - assert (Resolve q v' = Resolve q v) as [= ->].
    { apply Hsole; [|done]. unfold queued. rewrite E.
      apply elem_of_app. right. by left. }
    apply (frame_settled _ _ _ _ (drain_frame n _)).
    by apply fulfil_lookup_pending.
  - destruct i as [|i]; [simpl in Hl; congruence|]. simpl in Hl.
    destruct (fulfil_microtasks_app p' v' (set_microtasks (λ _, rest) w))
      as [extra Hm].
    apply (IH i); [lia| | |].
    + simpl. rewrite Hm. simpl. rewrite lookup_app_l; [done|].
      by eapply lookup_lt_Some.
    + simpl. by rewrite fulfil_lookup_ne.
    + intros t Ht. apply Hsole. by apply Hsub.
Qed.

End Settling.

(** ** A timer fulfils its promise at its deadline, and not before *)

Section TimedPromise.

Lemma macrotask_untouched p t w :
  target t ≠ p →
  (∀ t', t' ∈ queued w → target t' ≠ p) →
  promises (macrotask t w) !! p = promises w !! p.
Proof.
  intros Ht Hq. destruct t as [p' v']. simpl in Ht.
  unfold macrotask, run_microtasks. simpl. rewrite drain_untouched.
  - by apply fulfil_lookup_ne.
  - intros t' Ht'. apply Hq. revert Ht'. apply frame_queued, fulfil_frame.
Qed.

Lemma fire_untouched p due w :
  (∀ x, x ∈ due → target x.2 ≠ p) →
  (∀ t, t ∈ queued w → target t ≠ p) →
  promises (fire due w) !! p = promises w !! p.
Proof.
  revert w. induction due as [|x due IH]; intros w Hdue Hq; [done|].
  unfold fire. simpl. fold (fire due (macrotask x.2 w)). rewrite IH.
  - apply macrotask_untouched; [|done]. apply Hdue. by left.
  - intros y Hy. apply Hdue. by right.
  - intros t Ht. apply Hq. revert Ht. apply frame_queued, macrotask_frame.
Qed.

Lemma fire_fires p v d due w :
  (d, Resolve p v) ∈ due →
  (∀ x, x ∈ due → target x.2 = p → x.2 = Resolve p v) →
  (∀ t, t ∈ queued w → target t ≠ p) →
  promises w !! p = Some Pending →
  promises (fire due w) !! p = Some (Fulfilled v).
Proof.
  revert w. induction due as [|x due IH]; intros w Hin Hsole Hq Hp.
  { by apply elem_of_nil in Hin. }
  unfold fire. simpl. fold (fire due (macrotask x.2 w)).
  destruct (decide (target x.2 = p)) as [Hx|Hx].
  - apply (frame_settled _ _ _ _ (fire_frame due _)).
    rewrite (Hsole x) by (done || by left).
    unfold macrotask. apply (frame_settled _ _ _ _ (run_microtasks_frame _)).
    simpl. by apply fulfil_lookup_pending.
  - apply IH.
    + apply elem_of_cons in Hin as [<-|Hin]; [|done]. by simpl in Hx.
    + intros y Hy. apply Hsole. by right.
    + intros t Ht. apply Hq. revert Ht.
      apply frame_queued, macrotask_frame.
    + by rewrite macrotask_untouched.
Qed.

Lemma timed_advance p v d dt w :
  timed p v d w → timed p v d (advance dt w).
Proof.
  intros [(Hnow & Hp & Hin & Hsole & Hq)|(Hnow & Hp)].
  - destruct (decide (d ≤ now w + dt)%N) as [Hd|Hd].
    + right. rewrite advance_now. split; [done|].
      unfold advance. apply (fire_fires p v d); simpl; try done.
      * by apply list_elem_of_filter.
      * intros x Hx Ht. apply list_elem_of_filter in Hx as [_ Hx].
        by rewrite (Hsole x Hx Ht).
    + left. rewrite advance_now, advance_timers. repeat split.
      * lia.
      * unfold advance. rewrite fire_untouched; simpl; try done.
        intros x Hx Ht. apply list_elem_of_filter in Hx as [Hle Hx].
        rewrite (Hsole x Hx Ht) in Hle. simpl in Hle. lia.
      * by apply list_elem_of_filter.
      * intros x Hx. apply list_elem_of_filter in Hx as [_ Hx]. auto.
      * intros t Ht. apply Hq. revert Ht.
        apply frame_queued, advance_frame.
  - right. rewrite advance_now. split; [lia|].
    by apply (frame_settled _ _ _ _ (advance_frame dt w)).
Qed.

Lemma timed_run_microtasks p v d w :
  timed p v d w → timed p v d (run_microtasks w).
Proof.
  unfold run_microtasks.
  intros [(Hnow & Hp & Hin & Hsole & Hq)|(Hnow & Hp)].
  - left. rewrite drain_now, drain_timers, drain_untouched by done.
    repeat split; try done.
    intros t Ht. apply Hq. revert Ht. apply frame_queued, drain_frame.
  - right. rewrite drain_now. split; [done|].
    by apply (frame_settled _ _ _ _ (drain_frame _ w)).
Qed.

Lemma timed_grows p v d w w' :
  allocated w → grows w w' → timed p v d w → timed p v d w'.
Proof.
  intros A (Gn & Gm & Gp & Gt & Gt' & Gr & Gr' & _) T.
  assert (p < next_promise w) as Hlt.
  { destruct (decide (p < next_promise w)) as [|Hge]; [done|].
    destruct A as (A1 & _). specialize (A1 p ltac:(lia)).
    destruct T as [(_ & ? & _)|(_ & ?)]; congruence. }
  destruct T as [(Hnow & Hp & Hin & Hsole & Hq)|(Hnow & Hp)].
  - left. rewrite Gn, Gp by done. repeat split; auto.
    + intros x Hx Ht. destruct (Gt' x Hx) as [Hold|Hnew]; [auto|lia].
    + intros t. unfold queued. rewrite Gm, elem_of_app, list_elem_of_fmap.
      intros [(r & -> & Hr)|Ht].
      * destruct (Gr' r Hr) as [Hold|[_ Hnew]]; [|lia].
        apply Hq. apply elem_of_app. left. apply list_elem_of_fmap. eauto.
      * apply Hq. apply elem_of_app. by right.
  - right. by rewrite Gn, Gp.
Qed.

End TimedPromise.

(** ** An awaited timer wakes the [async] function that waits for it *)

Section AwaitedPromise.

Lemma undisturbed_refl q p w : dormant q p w → undisturbed q p w w.
Proof. intros D. split; [done|]. by repeat split. Qed.

Lemma undisturbed_trans q p w1 w2 w3 :
  undisturbed q p w1 w2 → undisturbed q p w2 w3 → undisturbed q p w1 w3.
Proof.
  intros (_ & a1 & b1 & c1) (D & a2 & b2 & c2).
  split; [done|]. repeat split; try congruence. auto.
Qed.

Lemma fulfil_undisturbed q p p' v' w :
  p' ≠ p → p' ≠ q → dormant q p w → undisturbed q p w (fulfil p' v' w).
Proof.
  intros Hp Hq [Dm Dr]. split; [split|repeat split].
  - intros t Ht. apply fulfil_microtasks in Ht as [Ht|Ht]; [by apply Dm|].
    destruct (Dr _ Ht) as [Hk1 Hk2]. simpl in *. split; [done|].
    intros Htq. specialize (Hk2 Htq). congruence.
  - intros r Hr. apply (Dr r). revert Hr.
    apply frame_reactions, fulfil_frame.
  - by apply fulfil_lookup_ne.
  - by apply fulfil_lookup_ne.
  - intros t Ht. by apply fulfil_reactions_ne.
Qed.

Lemma drain_undisturbed q p n w :
  dormant q p w → undisturbed q p w (drain n w).
Proof.
  revert w. induction n as [|n IH]; intros w D; simpl;
    [by apply undisturbed_refl|].
  destruct (microtasks w) as [|[p' v'] rest] eqn:E;
    [by apply undisturbed_refl|].
  destruct D as [Dm Dr].
  destruct (Dm (Resolve p' v')) as [Hp Hq]; [rewrite E; by left|].
  simpl in Hp, Hq.
  assert (dormant q p (set_microtasks (λ _, rest) w)) as D'.
  { split; [|done]. intros t Ht. apply Dm. rewrite E. by right. }
  pose proof (fulfil_undisturbed q p p' v' _ Hp Hq D') as U.
  eapply undisturbed_trans; [exact U|]. apply IH, U.
Qed.

Lemma macrotask_undisturbed q p t w :
  target t ≠ p → target t ≠ q → dormant q p w →
  undisturbed q p w (macrotask t w).
Proof.
  intros Hp Hq D. destruct t as [p' v']. simpl in *.
  pose proof (fulfil_undisturbed q p p' v' _ Hp Hq D) as U.
  eapply undisturbed_trans; [exact U|].
  apply drain_undisturbed, U.
Qed.

Lemma fire_undisturbed q p due w :
  (∀ x, x ∈ due → target x.2 ≠ p ∧ target x.2 ≠ q) →
  dormant q p w → undisturbed q p w (fire due w).
Proof.
  revert w. induction due as [|x due IH]; intros w Hdue D;
    [by apply undisturbed_refl|].
  unfold fire. simpl. fold (fire due (macrotask x.2 w)).
  destruct (Hdue x) as [Hp Hq]; [by left|].
  pose proof (macrotask_undisturbed q p _ w Hp Hq D) as U.
  eapply undisturbed_trans; [exact U|]. apply IH; [|apply U].
  intros y Hy. apply Hdue. by right.
Qed.

(** The turn of the event loop in which the timer fires. *)
Lemma macrotask_wakes q v p u w :
  p ≠ q →
  promises w !! p = Some Pending →
  promises w !! q = Some Pending →
  (p, Resolve q v) ∈ reactions w →
  (∀ r, r ∈ reactions w → target r.2 = q → r.2 = Resolve q v) →
  dormant q p w →
  promises (macrotask (Resolve p u) w) !! q = Some (Fulfilled v).
Proof.
  intros Hne Hp Hq Hr Hsole [Dm Dr]. unfold macrotask, run_microtasks.
  simpl.
  pose proof (fulfil_moves p u _ w Hp Hr) as Hin.
  apply list_elem_of_lookup in Hin as [i Hi].
  apply (drain_runs q v _ i).
  - apply lookup_lt_Some in Hi. lia.
  - done.
  - by rewrite fulfil_lookup_ne.
  - intros t Ht Htq.
    apply (frame_queued _ _ _ (fulfil_frame p u w)) in Ht.
    apply elem_of_app in Ht as [Ht|Ht].
    + apply list_elem_of_fmap in Ht as (r & -> & Hr'). by apply Hsole.
    + by destruct (Dm t Ht).
Qed.

Lemma fire_wakes q v p due w :
  (∃ x, x ∈ due ∧ target x.2 = p) →
  (∀ x, x ∈ due → target x.2 ≠ q) →
  p ≠ q →
  promises w !! p = Some Pending →
  promises w !! q = Some Pending →
  (p, Resolve q v) ∈ reactions w →
  (∀ r, r ∈ reactions w → target r.2 = q → r.2 = Resolve q v) →
  dormant q p w →
  promises (fire due w) !! q = Some (Fulfilled v).
Proof.
  revert w. induction due as [|x due IH];
    intros w (x0 & Hin & Hx0) Hdue Hne Hp Hq Hr Hsole D.
  { by apply elem_of_nil in Hin. }
  unfold fire. simpl. fold (fire due (macrotask x.2 w)).
  destruct (decide (target x.2 = p)) as [Hx|Hx].
  - apply (frame_settled _ _ _ _ (fire_frame due _)).
    destruct x as [d' [p' u]]. simpl in Hx. subst p'. simpl.
    by apply macrotask_wakes.
  - assert (target x.2 ≠ q) as Hxq by (apply Hdue; by left).
    destruct (macrotask_undisturbed q p _ w Hx Hxq D) as (D' & Ep & Eq & Er).
    apply IH; try done.
    + exists x0. split; [|done].
      apply elem_of_cons in Hin as [->|Hin]; [done|done].
    + intros y Hy. apply Hdue. by right.
    + by rewrite Ep.
    + by rewrite Eq.
    + by apply Er.
    + intros r Hr'. apply Hsole. revert Hr'.
      apply frame_reactions, macrotask_frame.
Qed.

Lemma awaited_advance q v p d dt w :
  awaited q v p d w → awaited q v p d (advance dt w).
Proof.
  intros [(Hnow & Hq & Hp & Hne & Hin & Ht & Hr & Hsole & D)|(Hnow & Hq)].
  - destruct (decide (d ≤ now w + dt)%N) as [Hd|Hd].
    + right. rewrite advance_now. split; [done|].
      unfold advance. apply (fire_wakes q v p); simpl; try done.
      * exists (d, Resolve p VUndefined). split; [|done].
        by apply list_elem_of_filter.
      * intros x Hx. apply list_elem_of_filter in Hx as [_ Hx].
        by apply Ht.
    + left. rewrite advance_now, advance_timers.
      assert (undisturbed q p w (advance dt w)) as (D' & Ep & Eq & Er).
      { unfold advance.
        eapply undisturbed_trans; [|apply fire_undisturbed].
        - by apply (undisturbed_refl q p w).
        - intros x Hx. apply list_elem_of_filter in Hx as [Hle Hx].
          destruct (Ht x Hx) as [Hxq Hxp]. split; [|done].
          intros Hxp'. specialize (Hxp Hxp'). lia.
        - done. }
      rewrite Ep, Eq.
      split; [lia|]. split; [done|]. split; [done|]. split; [done|].
      split; [by apply list_elem_of_filter|].
      split; [|split; [by apply Er|split; [|done]]].
      * intros x Hx. apply list_elem_of_filter in Hx as [_ Hx].
        by apply Ht.
      * intros r Hr'. apply Hsole. revert Hr'.
        apply frame_reactions, advance_frame.
  - right. rewrite advance_now. split; [lia|].
    by apply (frame_settled _ _ _ _ (advance_frame dt w)).
Qed.

Lemma awaited_run_microtasks q v p d w :
  awaited q v p d w → awaited q v p d (run_microtasks w).
Proof.
  unfold run_microtasks.
  intros [(Hnow & Hq & Hp & Hne & Hin & Ht & Hr & Hsole & D)|(Hnow & Hq)].
  - left. rewrite drain_now, drain_timers.
    destruct (drain_undisturbed q p
                (length (microtasks w) + length (reactions w)) w D)
      as (D' & Ep & Eq & Er).
    rewrite Ep, Eq.
    split; [done|]. split; [done|]. split; [done|]. split; [done|].
    split; [done|]. split; [done|]. split; [by apply Er|]. split; [|done].
    intros r Hr'. apply Hsole. revert Hr'.
    apply frame_reactions, drain_frame.
  - right. rewrite drain_now. split; [done|].
    by apply (frame_settled _ _ _ _ (drain_frame _ w)).
Qed.

Lemma awaited_grows q v p d w w' :
  allocated w → grows w w' → awaited q v p d w → awaited q v p d w'.
Proof.
  intros A (Gn & Gm & Gp & Gt & Gt' & Gr & Gr' & _) T.
  assert (∀ a s, promises w !! a = Some s → a < next_promise w) as Hlt.
  { intros a s Ha. destruct (decide (a < next_promise w)) as [|Hge]; [done|].
    destruct A as (A1 & _). specialize (A1 a ltac:(lia)). congruence. }
  destruct T as
    [(Hnow & Hq & Hp & Hne & Hin & Ht & Hr & Hsole & Dm & Dr)|(Hnow & Hq)].
  - pose proof (Hlt _ _ Hq) as Hql. pose proof (Hlt _ _ Hp) as Hpl.
    left. rewrite Gn, !Gp by done.
    split; [done|]. split; [done|]. split; [done|]. split; [done|].
    split; [auto|]. split; [|split; [auto|split; [|split]]].
    + intros x Hx. destruct (Gt' x Hx) as [Hold|Hnew]; [by apply Ht|].
      split; [lia|]. intros ?. lia.
    + intros r Hr'. destruct (Gr' r Hr') as [Hold|[_ Hnew]];
        [by apply Hsole|]. intros ?. lia.
    + by rewrite Gm.
    + intros r Hr'. destruct (Gr' r Hr') as [Hold|[_ Hnew]];
        [by apply Dr|]. split; [lia|]. intros ?. lia.
  - right. rewrite Gn, Gp; [done|]. by eapply Hlt.
Qed.

End AwaitedPromise.

(** ** The fetch simulators *)

Section FetchSimulation.

(** Code that only touches the caches. *)
Lemma grows_same w w' :
  now w' = now w → microtasks w' = microtasks w →
  promises w' = promises w → timers w' = timers w →
  reactions w' = reactions w → grows w w'.
Proof.
  intros H1 H2 H3 H4 H5. unfold grows. rewrite H1, H2, H3, H4, H5.
  repeat split; auto.
Qed.

Lemma with_fetch_grows d v w : grows w (with_fetch d v w).
Proof.
  split; [done|]. split; [done|]. split; [|split; [|split; [|split]]].
  - intros p Hp. simpl. rewrite lookup_insert_ne; [done|lia].
  - intros x Hx. simpl. apply elem_of_insert_timer. by right.
  - intros x Hx. simpl in Hx.
    apply elem_of_insert_timer in Hx as [->|Hx]; [right; simpl; lia|by left].
  - done.
  - split; [by left|]. intros p r. simpl.
    destruct (decide (next_promise w = p)) as [<-|Hne].
    + by rewrite lookup_insert_eq.
    + by rewrite lookup_insert_ne.
Qed.

Lemma with_server_fetch_grows w : grows w (with_server_fetch w).
Proof.
  split; [done|]. split; [done|]. split; [|split; [|split; [|split]]].
  - intros p Hp. simpl. rewrite !lookup_insert_ne; [done|lia|lia].
  - intros x Hx. simpl. apply elem_of_insert_timer. by right.
  - intros x Hx. simpl in Hx.
    apply elem_of_insert_timer in Hx as [->|Hx]; [right; simpl; lia|by left].
  - intros r Hr. simpl. apply elem_of_app. by left.
  - split.
    + intros r Hr. simpl in Hr. apply elem_of_app in Hr as [Hr|Hr];
        [by left|right].
      apply list_elem_of_singleton in Hr as ->. simpl. lia.
    + intros p r. simpl.
      destruct (decide (S (next_promise w) = p)) as [<-|Hne];
        [by rewrite lookup_insert_eq|rewrite lookup_insert_ne by done].
      destruct (decide (next_promise w = p)) as [<-|Hne'];
        [by rewrite lookup_insert_eq|by rewrite lookup_insert_ne].
Qed.

(** Every operation but the passing of time is synchronous code. *)
Lemma perform_grows o w :
  (∀ dt, o ≠ Advance dt) → grows w (perform o w).
Proof.
  intros Ho. destruct o as [id|id|id|id|uid| | |dt];
    unfold perform.
  - destruct (userCache w !! id) as [q|] eqn:E.
    + rewrite (getUserPromise_hit _ _ _ E). by apply grows_same.
    + rewrite (getUserPromise_miss _ _ E).
      apply (with_fetch_grows 1500 (VUser (user_of id)) w).
  - destruct (postsCache w !! id) as [q|] eqn:E.
    + rewrite (getPostsPromise_hit _ _ _ E). by apply grows_same.
    + rewrite (getPostsPromise_miss _ _ E).
      apply (with_fetch_grows 2000 (VPosts (posts_of id)) w).
  - by apply grows_same.
  - by apply grows_same.
  - by apply grows_same.
  - destruct (serverDataCache w) as [q|] eqn:E.
    + rewrite (getServerData_hit _ _ E). by apply grows_same.
    + rewrite (getServerData_miss _ E). apply (with_server_fetch_grows w).
  - by apply grows_same.
  - by destruct (Ho dt).
Qed.

(** A property of the realm kept by the passing of time, by microtask
    checkpoints and by synchronous code is kept by every history. *)
Lemma run_preserves (I : World → Prop) :
  (∀ dt w, I w → I (advance dt w)) →
  (∀ w, I w → I (run_microtasks w)) →
  (∀ w w', allocated w → grows w w' → I w → I w') →
  ∀ os w, allocated w → I w → I (run os w).
Proof.
  intros Hadv Hmicro Hgrow os.
  induction os as [|o os IH]; intros w A Hw; [done|].
  simpl. apply IH; [by apply exec_allocated|].
  unfold exec. apply Hmicro.
  assert ((∃ dt, o = Advance dt) ∨ ∀ dt, o ≠ Advance dt) as [[dt ->]|Hno]
    by (destruct o; eauto).
  - by apply Hadv.
  - apply (Hgrow w); [done| |done]. by apply perform_grows.
Qed.

Lemma run_no_rejection os w :
  allocated w → no_rejection w → no_rejection (run os w).
Proof.
  apply (run_preserves no_rejection).
  - intros dt w0. apply frame_no_rejection, advance_frame.
  - intros w0. apply frame_no_rejection, run_microtasks_frame.
  - intros w0 w' _ (_ & _ & _ & _ & _ & _ & _ & G) Hno p r Hp.
    by apply (Hno p r), G.
Qed.

Lemma run_timed p v d os w :
  allocated w → timed p v d w → timed p v d (run os w).
Proof.
  apply (run_preserves (timed p v d)).
  - intros dt w0. apply timed_advance.
  - apply timed_run_microtasks.
  - intros w0 w'. apply timed_grows.
Qed.

Lemma run_awaited q v p d os w :
  allocated w → awaited q v p d w → awaited q v p d (run os w).
Proof.
  apply (run_preserves (awaited q v p d)).
  - intros dt w0. apply awaited_advance.
  - apply awaited_run_microtasks.
  - intros w0 w'. apply awaited_grows.
Qed.

(** What a fetch establishes. *)
Lemma with_fetch_timed delay v w :
  allocated w → (0 < delay)%N →
  timed (next_promise w) v (now w + delay) (with_fetch delay v w).
Proof.
  intros (A1 & A2 & A3 & A4 & _) Hd. left.
  split; [simpl; lia|]. split; [simpl; by rewrite lookup_insert_eq|].
  split; [simpl; apply elem_of_insert_timer; by left|]. split.
  - intros x Hx Ht. simpl in Hx.
    apply elem_of_insert_timer in Hx as [->|Hx]; [done|].
    specialize (A2 x Hx). lia.
  - intros t Ht. specialize (A4 t Ht). lia.
Qed.

Lemma with_server_fetch_awaited w :
  allocated w →
  awaited (next_promise w) (VServerData products) (S (next_promise w))
    (now w + 800) (with_server_fetch w).
Proof.
  intros (A1 & A2 & A3 & A4 & _). left.
  split; [simpl; lia|].
  split; [simpl; rewrite lookup_insert_ne by lia;
          by rewrite lookup_insert_eq|].
  split; [simpl; by rewrite lookup_insert_eq|].
  split; [lia|].
  split; [simpl; apply elem_of_insert_timer; by left|].
  assert (∀ r, r ∈ reactions w → target r.2 < next_promise w) as A4r.
  { intros r Hr. apply A4. apply elem_of_app. left.
    apply list_elem_of_fmap. eauto. }
  assert (∀ t, t ∈ microtasks w → target t < next_promise w) as A4m.
  { intros t Ht. apply A4. apply elem_of_app. by right. }
  split; [|split; [|split; [|split]]].
  - intros x Hx. simpl in Hx.
    apply elem_of_insert_timer in Hx as [->|Hx]; simpl; [split; [lia|done]|].
    specialize (A2 x Hx). split; [lia|]. intros ?. lia.
  - simpl. apply elem_of_app. right. by left.
  - intros r Hr. simpl in Hr. apply elem_of_app in Hr as [Hr|Hr].
    + specialize (A4r r Hr). intros ?. lia.
    + by apply list_elem_of_singleton in Hr as ->.
  - intros t Ht. simpl in Ht. specialize (A4m t Ht). lia.
  - intros r Hr. simpl in Hr. apply elem_of_app in Hr as [Hr|Hr].
    + specialize (A4r r Hr). split; [lia|]. intros ?. lia.
    + apply list_elem_of_singleton in Hr as ->. simpl. split; [lia|done].
Qed.

Lemma timed_status p v d w :
  timed p v d w →
  promises w !! p
  = Some (if decide (d ≤ now w)%N then Fulfilled v else Pending).
Proof.
  intros [(Hnow & Hp & _)|(Hnow & Hp)]; case_decide; (done || lia).
Qed.

Lemma awaited_status q v p d w :
  awaited q v p d w →
  promises w !! q
  = Some (if decide (d ≤ now w)%N then Fulfilled v else Pending).
Proof.
  intros [(Hnow & Hp & _)|(Hnow & Hp)]; case_decide; (done || lia).
Qed.

Example user_resolves_at_1500 :
  let f := fetchUser 7 initial in
  promises (run [Advance 1499] f.2) !! f.1 = Some Pending
  ∧ promises (run [Advance 1499; Advance 1] f.2) !! f.1
    = Some (Fulfilled
              (VUser {| user_id := 7; user_name := "User 7";
                        user_email := "user7@example.com" |})).
Proof. split; by vm_compute. Qed.

Example server_data_resolves_at_800 :
  let f := fetchServerData initial in
  promises (run [Advance 799] f.2) !! f.1 = Some Pending
  ∧ promises (run [Advance 800] f.2) !! f.1
    = Some (Fulfilled (VServerData ServerComponentsDemo.products))
  ∧ microtasks (run [Advance 800] f.2) = []
  ∧ reactions (run [Advance 800] f.2) = [].
Proof. repeat split; by vm_compute. Qed.

Lemma initial_no_rejection : no_rejection initial.
Proof. intros p r. simpl. by rewrite lookup_empty. Qed.

(** C9. At any point [w] of any history, for every key [k]: the promise
    a fetch simulator returns is pending; whatever happens afterwards, it
    stays pending while the clock is before the simulator's deadline
    (1500 ms for [fetchUser], 2000 ms for [fetchPosts], 800 ms for
    [fetchServerData]) and it is fulfilled, with the payload computed
    from [k] alone, in every realm at or after the deadline; and no
    promise of the realm is ever rejected. *)
Theorem fetch_simulations_always_resolve (k : Z) (os0 os : list Op) :
  let w := run os0 initial in
  (let f := fetchUser k w in
   let w' := run os f.2 in
   promises f.2 !! f.1 = Some Pending
   ∧ promises w' !! f.1
     = Some (if decide (now w + 1500 ≤ now w')%N
             then Fulfilled (VUser (user_of k)) else Pending)
   ∧ no_rejection w')
  ∧ (let f := fetchPosts k w in
     let w' := run os f.2 in
     promises f.2 !! f.1 = Some Pending
     ∧ promises w' !! f.1
       = Some (if decide (now w + 2000 ≤ now w')%N
               then Fulfilled (VPosts (posts_of k)) else Pending)
     ∧ no_rejection w')
  ∧ (let f := fetchServerData w in
     let w' := run os f.2 in
     promises f.2 !! f.1 = Some Pending
     ∧ promises w' !! f.1
       = Some (if decide (now w + 800 ≤ now w')%N
               then Fulfilled (VServerData products) else Pending)
     ∧ no_rejection w').
Proof.
  intros w.
  assert (allocated w) as A by apply run_allocated, initial_allocated.
  assert (no_rejection w) as Hno
    by (apply run_no_rejection;
        [apply initial_allocated|apply initial_no_rejection]).
  assert (∀ w1, grows w w1 → no_rejection w1) as Hno'.
  { intros w1 (_ & _ & _ & _ & _ & _ & _ & G) p r Hp.
    by apply (Hno p r), G. }
  split; [|split].
  - rewrite fetchUser_eq. simpl.
    pose proof (with_fetch_allocated 1500 (VUser (user_of k)) w A) as A'.
    split; [by rewrite lookup_insert_eq|]. split.
    + apply timed_status, run_timed; [done|].
      by apply with_fetch_timed.
    + apply run_no_rejection; [done|]. apply Hno', with_fetch_grows.
  - rewrite fetchPosts_eq. simpl.
    pose proof (with_fetch_allocated 2000 (VPosts (posts_of k)) w A) as A'.
    split; [by rewrite lookup_insert_eq|]. split.
    + apply timed_status, run_timed; [done|].
      by apply with_fetch_timed.
    + apply run_no_rejection; [done|]. apply Hno', with_fetch_grows.
  - rewrite fetchServerData_eq. simpl.
    pose proof (with_server_fetch_allocated w A) as A'.
    split; [rewrite lookup_insert_ne by lia; by rewrite lookup_insert_eq|].
    split.
    + eapply awaited_status, run_awaited; [done|].
      by apply with_server_fetch_awaited.
    + apply run_no_rejection; [done|]. apply Hno', with_server_fetch_grows.
Qed.

End FetchSimulation.

(** ** The client entry point *)

Section ClientEntry.
Import Main.

Lemma hasServerContent_spec container :
  hasServerContent container = true ↔ ∃ n, n ∈ container ∧ is_element n = true.
Proof.
  unfold hasServerContent, children. rewrite Nat.ltb_lt. split.
  - intros Hlen. destruct (List.filter is_element container) as [|n rest] eqn:E;
      [simpl in Hlen; lia|].
    assert (In n (List.filter is_element container)) as Hin
      by (rewrite E; by left).
    apply filter_In in Hin as [Hin Hel]. exists n.
    split; [by apply list_elem_of_In|done].
  - intros (n & Hin & Hel).
    assert (In n (List.filter is_element container)) as Hf
      by (apply filter_In; split; [by apply list_elem_of_In|done]).
    destruct (List.filter is_element container); [done|simpl; lia].
Qed.


(** Comments and text in the container do not count as server content. *)
Example comment_only_container_is_rendered_fresh :
  main {| root := Some [DomComment "app-html"; DomText " "] |}
  = Some (CreateRootRender [DomComment "app-html"; DomText " "]
            (StrictMode [Comp EApp])).
Proof. reflexivity. Qed.

Example server_markup_is_hydrated :
  main {| root := Some [DomElement "div" [DomText "React 19 Features Demo"]] |}
  = Some (HydrateRoot [DomElement "div" [DomText "React 19 Features Demo"]]
            (StrictMode [Comp EApp])).
Proof. reflexivity. Qed.

End ClientEntry.

(** ** The app shell *)

Section AppShell.
Import App.

(** C6. The selection ranges over the four demos and nothing else; its
    first value is [suspense]; the only handlers of the shell are the
    click handlers of the four navigation buttons, and a step of the
    shell changes the selection only if it is a click on one of them,
    which selects that button's demo; and for every selection the only
    component element of the rendered tree is the element of the
    selected demo, below [<main>]. *)
Theorem demo_selection_state :
  (∀ d : Demo, d ∈ all_demos) ∧ NoDup all_demos
  ∧ initial_activeDemo = suspense
  ∧ (∀ d, handlers_of (App d)
          = (λ d', ("onClick", SetActiveDemo d')) <$> all_demos)
  ∧ (∀ d ev, step d ev ≠ d →
       ∃ i d', ev = Click i
               ∧ handlers_of (App d) !! i = Some ("onClick", SetActiveDemo d')
               ∧ step d ev = d')
  ∧ (∀ d d', step d (Click (slot d')) = d')
  ∧ (∀ d, instances [] (App d) = [([2; slot d], element_of d)]).
Proof.
  split; [|split; [|split; [|split; [|split; [|split]]]]].
  - intros []; apply list_elem_of_In; simpl; tauto.
  - by compute_done.
  - done.
  - by intros [].
  - intros d [|i] Hne; [by destruct Hne|]. unfold step in *.
    destruct (handlers_of (App d) !! i) as [[ev h]|] eqn:E;
      [|by destruct Hne].
    destruct h as [d']. exists i, d'. split; [done|]. split; [|done].
    destruct d; do 4 (destruct i as [|i]; [by inversion E|]);
      by destruct i.
  - by intros [] [].
  - by intros [].
Qed.

(** The earlier revision of the shell has the same shape over three
    demos: it has no [servercomponents] selection. *)
Lemma earlier_shell_has_three_demos :
  (∀ d : AppEarlier.Demo,
     d ∈ [AppEarlier.suspense; AppEarlier.activity; AppEarlier.viewtransitions])
  ∧ AppEarlier.initial_activeDemo = AppEarlier.suspense
  ∧ (∀ d, length (handlers_of (AppEarlier.App d)) = 3)
  ∧ (∀ d, length (instances [] (AppEarlier.App d)) = 1).
Proof.
  split; [|split; [|split]].
  - intros []; apply list_elem_of_In; simpl; tauto.
  - done.
  - by intros [].
  - by intros [].
Qed.

End AppShell.

(** ** The gallery *)

Section Gallery.
Import ViewTransitionsDemo.

(** C4. Both transitions of the gallery, [handleSelect item] (to
    [Some item]) and [handleBack] (to [None]), for every value [old] on
    screen.  With [document.startViewTransition] the handler makes one
    call of it, whose callback makes one [flushSync] call around the
    setter call; the update is on screen when the callback returns, so
    the two captures of the transition are [old] and the new value.
    Without it the handler is the bare setter call: when the handler
    returns the screen still shows [old], the update is requested, and
    nothing was captured.  After React's turn the screen shows the new
    value in both cases. *)
Theorem gallery_transition (document : Document) (old : option Item) :
  ∀ (handler : list Cmd) (new : option Item),
    (∃ item, handler = handleSelect document item ∧ new = Some item)
    ∨ (handler = handleBack document ∧ new = None) →
    (if startViewTransition document
     then handler = [StartViewTransition [FlushSync [SetSelectedItem new]]]
          ∧ run_handler handler (at_rest old)
            = {| shown := new; requested := []; captured := [(old, new)] |}
     else handler = [SetSelectedItem new]
          ∧ run_handler handler (at_rest old)
            = {| shown := old; requested := [new]; captured := [] |})
    ∧ shown (react_turn (run_handler handler (at_rest old))) = new.
Proof.
  intros handler new [(item & -> & ->)|[-> ->]];
    unfold handleSelect, handleBack;
    by destruct (startViewTransition document).
Qed.

(** C8. From the list view, selecting any item and navigating back --
    with or without view transitions at either step -- ends in the list
    view again: no item is selected, and the component renders what it
    rendered before the round trip.  In between the detail view of the
    selected item is shown.  The list view renders one card per entry of
    the constant [items], in order, whatever the selection was. *)
Theorem select_then_back_restores_list
    (document1 document2 : Document) (item : Item) :
  let s0 := at_rest initial_selectedItem in
  let s1 := react_turn (run_handler (handleSelect document1 item) s0) in
  let s2 := react_turn (run_handler (handleBack document2) s1) in
  shown s1 = Some item
  ∧ view (shown s1) = [([2; 0], EDetailView item)]
  ∧ shown s2 = shown s0
  ∧ ViewTransitionsDemo (shown s2) = ViewTransitionsDemo (shown s0)
  ∧ view (shown s2) = [([2; 0], EListView)]
  ∧ ListView
    = El "div" [className "list-view"] []
        [ El "h3" [] [] [Text "Gallery"];
          El "div" [className "item-grid"] [] (item_card <$> items) ]
  ∧ length items = 4.
Proof.
  destruct document1 as [[]], document2 as [[]]; by repeat split.
Qed.

(** Each card shows the image and the title of its item and selects
    it. *)
Lemma item_card_shows item :
  ∃ attrs image_attrs title_attrs,
    item_card item
    = El "button" attrs [("onClick", HandleSelect item)]
        [ El "span" image_attrs [] [Text (item_image item)];
          El "span" title_attrs [] [Text (item_title item)] ].
Proof. by eexists _, _, _. Qed.

End Gallery.

(** ** The tab container *)

Section TabContainer.
Import ActivityDemo.

Lemma ActivityDemo_instances tab :
  instances [] (ActivityDemo tab)
  = [(video_path, EVideoPlayer "main"); (draft_path, ECommentDraft)].
Proof. by destruct tab. Qed.

Lemma reconcile_mounts fibers tab :
  ∃ sv sd, reconcile initial_state fibers (ActivityDemo tab) = mounted sv sd.
Proof.
  unfold reconcile. rewrite ActivityDemo_instances.
  unfold mount_or_keep, mounted. simpl.
  destruct (fibers !! video_path) as [[e1 s1]|];
    destruct (fibers !! draft_path) as [[e2 s2]|];
    repeat match goal with |- context [if ?b then _ else _] => destruct b end;
    by eexists _, _.
Qed.

Lemma reconcile_mounted sv sd tab :
  reconcile initial_state (mounted sv sd) (ActivityDemo tab) = mounted sv sd.
Proof.
  unfold reconcile. rewrite ActivityDemo_instances. simpl.
  unfold mount_or_keep, mounted. simpl.
  rewrite lookup_insert_eq. rewrite lookup_insert_ne by done.
  by rewrite lookup_insert_eq.
Qed.

Lemma mutate_mounted sv sd path st :
  ∃ sv' sd', step (mounted sv sd) (Mutate path st) = mounted sv' sd'.
Proof.
  simpl. unfold mounted.
  destruct (decide (path = video_path)) as [->|Hv].
  - rewrite alter_insert_eq. simpl. eauto.
  - rewrite alter_insert_ne by done.
    destruct (decide (path = draft_path)) as [->|Hd].
    + rewrite alter_insert_eq. simpl. eauto.
    + rewrite alter_insert_ne by done. rewrite alter_empty. eauto.
Qed.

Lemma switches_are_invisible evs sv sd :
  foldl step (mounted sv sd) evs
  = foldl step (mounted sv sd) (List.filter is_mutation evs).
Proof.
  revert sv sd. induction evs as [|[tab|path st] evs IH]; intros sv sd;
    [done| |].
  - simpl. rewrite reconcile_mounted. apply IH.
  - destruct (mutate_mounted sv sd path st) as (sv' & sd' & E).
    cbn [List.filter is_mutation foldl]. rewrite E. apply IH.
Qed.

(** C5. For every active tab the container renders the subtrees of all
    three tabs, each inside its own [Activity] whose mode is [visible]
    exactly for the active tab; so the two stateful instances are in the
    tree at the same positions whatever the tab.  Hence, for a mounted
    container with any states in its instances, tab switches never
    change a state: a history of tab switches and state changes ends
    with the states the state changes alone produce, and going from [a]
    to [b] and back to [a] leaves every state as it was. *)
Theorem tab_switches_keep_state :
  (∀ tab, instances [] (ActivityDemo tab)
          = [(video_path, EVideoPlayer "main"); (draft_path, ECommentDraft)])
  ∧ (∀ tab, modes (ActivityDemo tab)
            = [mode_of tab video; mode_of tab comment; mode_of tab other])
  ∧ (∀ active tab, mode_of active tab = visible ↔ active = tab)
  ∧ (∀ fibers0 a,
       let fibers := reconcile initial_state fibers0 (ActivityDemo a) in
       (∀ evs, foldl step fibers evs
               = foldl step fibers (List.filter is_mutation evs))
       ∧ (∀ b, foldl step fibers [SwitchTab b; SwitchTab a] = fibers)
       ∧ ∃ sv sd, fibers !! video_path = Some (EVideoPlayer "main", sv)
                  ∧ fibers !! draft_path = Some (ECommentDraft, sd)).
Proof.
  split; [apply ActivityDemo_instances|]. split; [by intros []|].
  split; [intros [] []; by compute|].
  intros fibers0 a fibers.
  destruct (reconcile_mounts fibers0 a) as (sv & sd & E).
  subst fibers. rewrite E. split; [|split].
  - intros evs. apply switches_are_invisible.
  - intros b. by rewrite switches_are_invisible.
  - exists sv, sd. unfold mounted. rewrite lookup_insert_eq.
    rewrite lookup_insert_ne by done. by rewrite lookup_insert_eq.
Qed.

(** The draft survives the round trip; a conditionally rendered child
    would not. *)
Example draft_survives_round_trip :
  let typed := DraftState {| text := "hello"; name := "Ada" |} in
  let fibers := mounted (VideoState initial_video) (DraftState initial_draft) in
  foldl step fibers
    [ SwitchTab comment; Mutate draft_path typed; SwitchTab video;
      Mutate video_path (VideoState (tick initial_video));
      SwitchTab comment ]
  = mounted (VideoState (tick initial_video)) typed.
Proof.
  intros typed fibers. subst fibers. rewrite switches_are_invisible.
  apply map_eq. intros path. simpl. unfold mounted.
  rewrite alter_insert_ne by done. rewrite alter_insert_eq.
  rewrite alter_insert_eq. done.
Qed.

End TabContainer.

(** ** What the caches hold *)

Section CacheTyping.

Lemma user_entry_origin o k p w :
  userCache (perform o w) !! k = Some p →
  userCache w !! k = Some p
  ∨ (o = GetUser k ∧ userCache w !! k = None ∧ p = next_promise w).
Proof.
  destruct o as [id|id|id|id|uid| | |dt]; simpl.
  - destruct (userCache w !! id) as [q|] eqn:E.
    + rewrite (getUserPromise_hit _ _ _ E). auto.
    + rewrite (getUserPromise_miss _ _ E). simpl.
      destruct (decide (id = k)) as [->|Hne].
      * rewrite lookup_insert_eq. intros [= <-]. auto.
      * rewrite lookup_insert_ne by done. auto.
  - destruct (postsCache w !! id) as [q|] eqn:E.
    + rewrite (getPostsPromise_hit _ _ _ E). auto.
    + rewrite (getPostsPromise_miss _ _ E). auto.
  - intros H. apply lookup_delete_Some in H as [_ H]. auto.
  - auto.
  - intros H. apply lookup_delete_Some in H as [_ H]. auto.
  - destruct (serverDataCache w) as [q|] eqn:E.
    + rewrite (getServerData_hit _ _ E). auto.
    + rewrite (getServerData_miss _ E). auto.
  - auto.
  - rewrite (proj1 (proj2 (advance_frame dt w))). auto.
Qed.

Lemma posts_entry_origin o k p w :
  postsCache (perform o w) !! k = Some p →
  postsCache w !! k = Some p
  ∨ (o = GetPosts k ∧ postsCache w !! k = None ∧ p = next_promise w).
Proof.
  destruct o as [id|id|id|id|uid| | |dt]; simpl.
  - destruct (userCache w !! id) as [q|] eqn:E.
    + rewrite (getUserPromise_hit _ _ _ E). auto.
    + rewrite (getUserPromise_miss _ _ E). auto.
  - destruct (postsCache w !! id) as [q|] eqn:E.
    + rewrite (getPostsPromise_hit _ _ _ E). auto.
    + rewrite (getPostsPromise_miss _ _ E). simpl.
      destruct (decide (id = k)) as [->|Hne].
      * rewrite lookup_insert_eq. intros [= <-]. auto.
      * rewrite lookup_insert_ne by done. auto.
  - auto.
  - intros H. apply lookup_delete_Some in H as [_ H]. auto.
  - intros H. apply lookup_delete_Some in H as [_ H]. auto.
  - destruct (serverDataCache w) as [q|] eqn:E.
    + rewrite (getServerData_hit _ _ E). auto.
    + rewrite (getServerData_miss _ E). auto.
  - auto.
  - rewrite (proj1 (proj2 (proj2 (advance_frame dt w)))). auto.
Qed.

Lemma timed_perform p v d o w :
  allocated w → timed p v d w → timed p v d (perform o w).
Proof.
  intros A T.
  assert ((∃ dt, o = Advance dt) ∨ ∀ dt, o ≠ Advance dt) as [[dt ->]|Hno]
    by (destruct o; eauto).
  - by apply timed_advance.
  - eapply timed_grows; [done| |done]. by apply perform_grows.
Qed.

Lemma caches_typed_perform o w :
  allocated w → caches_typed w → caches_typed (perform o w).
Proof.
  intros A [TU TP]. split; intros k p Hk.
  - apply user_entry_origin in Hk as [Hold|(-> & Hnone & ->)].
    + destruct (TU _ _ Hold) as [d T]. exists d. by apply timed_perform.
    + exists (now w + 1500)%N. simpl.
      rewrite (getUserPromise_miss _ _ Hnone).
      by apply (with_fetch_timed 1500 (VUser (user_of k)) w).
  - apply posts_entry_origin in Hk as [Hold|(-> & Hnone & ->)].
    + destruct (TP _ _ Hold) as [d T]. exists d. by apply timed_perform.
    + exists (now w + 2000)%N. simpl.
      rewrite (getPostsPromise_miss _ _ Hnone).
      by apply (with_fetch_timed 2000 (VPosts (posts_of k)) w).
Qed.

Lemma caches_typed_run_microtasks w :
  caches_typed w → caches_typed (run_microtasks w).
Proof.
  intros [TU TP].
  destruct (run_microtasks_frame w) as (_ & EU & EP & _).
  split; intros k p Hk.
  - rewrite EU in Hk. destruct (TU _ _ Hk) as [d T]. exists d.
    by apply timed_run_microtasks.
  - rewrite EP in Hk. destruct (TP _ _ Hk) as [d T]. exists d.
    by apply timed_run_microtasks.
Qed.

Lemma caches_typed_run os w :
  allocated w → caches_typed w → caches_typed (run os w).
Proof.
  revert w. induction os as [|o os IH]; intros w A T; [done|].
  simpl. apply IH; [by apply exec_allocated|].
  unfold exec. by apply caches_typed_run_microtasks, caches_typed_perform.
Qed.

Lemma initial_caches_typed : caches_typed initial.
Proof. split; intros k p; simpl; by rewrite lookup_empty. Qed.

(** A cached user promise is pending or holds the user of its key. *)
Lemma timed_cases p v d w :
  timed p v d w →
  promises w !! p = Some Pending ∨ promises w !! p = Some (Fulfilled v).
Proof. intros [(_ & ? & _)|(_ & ?)]; auto. Qed.

End CacheTyping.

(** ** The server entry point *)

Section ServerEntry.
Import EntryServer ServerMarkup.

(** *** The render pass, for any way of rendering component elements *)

Section AnyComponents.
Variable comp : Element → Render (list Html).

Lemma strict_mode_renders w app w' :
  comp EApp w = (Done app, w') →
  render_with comp (StrictMode [Comp EApp]) w = (Done app, w').
Proof.
  intros H. vm_compute. rewrite H. repeat f_equal. apply app_nil_r.
Qed.

Lemma shell_renders w demo w' :
  comp ESuspenseDemo w = (Done demo, w') →
  render_with comp (erase (App.App App.initial_activeDemo)) w
  = (Done (shell demo), w').
Proof.
  intros H. vm_compute. rewrite H. unfold shell. repeat f_equal.
  apply app_nil_r.
Qed.

Hypothesis spinner_renders :
  ∀ label w, comp (ELoadingSpinner label) w = (Done [spinner label], w).

Lemma demo_renders_user_pending up pp posts p w :
  comp (EUserCard up) w = (Suspended p, w) →
  render_with comp (erase (SuspenseDemo_return 1 up pp)) w
  = (Done (suspense_demo None posts), w).
Proof.
  intros H. vm_compute. rewrite H. by rewrite spinner_renders.
Qed.

Lemma demo_renders_posts_pending up pp user p w :
  comp (EUserCard up) w = (Done [user_card user], w) →
  comp (EPostsList pp) w = (Suspended p, w) →
  render_with comp (erase (SuspenseDemo_return 1 up pp)) w
  = (Done (suspense_demo (Some user) None), w).
Proof.
  intros H1 H2. vm_compute. rewrite H1, H2. by rewrite spinner_renders.
Qed.

Lemma demo_renders_ready up pp user posts w :
  comp (EUserCard up) w = (Done [user_card user], w) →
  comp (EPostsList pp) w = (Done [posts_list posts], w) →
  render_with comp (erase (SuspenseDemo_return 1 up pp)) w
  = (Done (suspense_demo (Some user) (Some posts)), w).
Proof.
  intros H1 H2. vm_compute. by rewrite H1, H2.
Qed.

End AnyComponents.

(** *** The components of the suspense demo *)

Lemma use_fulfilled p v w :
  promises w !! p = Some (Fulfilled v) → use (Some p) w = (Done v, w).
Proof. intros H. unfold use. by rewrite H. Qed.

Lemma use_pending p w :
  promises w !! p = Some Pending → use (Some p) w = (Suspended p, w).
Proof. intros H. unfold use. by rewrite H. Qed.

Lemma comp_at_eq n e w :
  comp_at n e w
  = match initial_body e w with
    | (Done v, w') => render_node initial_body n v w'
    | (Suspended p, w') => (Suspended p, w')
    | (Thrown error, w') => (Thrown error, w')
    end.
Proof. reflexivity. Qed.

Lemma UserCard_ready p user w :
  promises w !! p = Some (Fulfilled (VUser user)) →
  SuspenseDemo.UserCard (Some p) w
  = (Done (El "div" [className "user-card"] []
             [ El "h3" [] [] [Text (user_name user)];
               El "p" [] [] [Text (user_email user)] ]), w).
Proof.
  intros H. unfold SuspenseDemo.UserCard, mbind, Render_bind.
  by rewrite (use_fulfilled _ _ _ H).
Qed.

Lemma UserCard_pending p w :
  promises w !! p = Some Pending →
  SuspenseDemo.UserCard (Some p) w = (Suspended p, w).
Proof.
  intros H. unfold SuspenseDemo.UserCard, mbind, Render_bind.
  by rewrite (use_pending _ _ H).
Qed.

Lemma PostsList_ready p posts w :
  promises w !! p = Some (Fulfilled (VPosts posts)) →
  SuspenseDemo.PostsList (Some p) w
  = (Done (El "ul" [className "posts-list"] []
             ((λ post, El "li" [("key", pretty (post_id post))] []
                         [Text (post_title post)]) <$> posts)), w).
Proof.
  intros H. unfold SuspenseDemo.PostsList, mbind, Render_bind.
  by rewrite (use_fulfilled _ _ _ H).
Qed.

Lemma PostsList_pending p w :
  promises w !! p = Some Pending →
  SuspenseDemo.PostsList (Some p) w = (Suspended p, w).
Proof.
  intros H. unfold SuspenseDemo.PostsList, mbind, Render_bind.
  by rewrite (use_pending _ _ H).
Qed.

Lemma spinner_rendered label w :
  comp_at 5 (ELoadingSpinner label) w = (Done [spinner label], w).
Proof. reflexivity. Qed.

Lemma user_card_rendered p user w :
  promises w !! p = Some (Fulfilled (VUser user)) →
  comp_at 5 (EUserCard (Some p)) w = (Done [user_card user], w).
Proof.
  intros H. rewrite comp_at_eq.
  change (initial_body (EUserCard (Some p)))
    with (SuspenseDemo.UserCard (Some p)).
  by rewrite (UserCard_ready _ _ _ H).
Qed.

Lemma user_card_suspends p w :
  promises w !! p = Some Pending →
  comp_at 5 (EUserCard (Some p)) w = (Suspended p, w).
Proof.
  intros H. rewrite comp_at_eq.
  change (initial_body (EUserCard (Some p)))
    with (SuspenseDemo.UserCard (Some p)).
  by rewrite (UserCard_pending _ _ H).
Qed.

Lemma posts_list_rendered p k w :
  promises w !! p = Some (Fulfilled (VPosts (posts_of k))) →
  comp_at 5 (EPostsList (Some p)) w = (Done [posts_list (posts_of k)], w).
Proof.
  intros H. rewrite comp_at_eq.
  change (initial_body (EPostsList (Some p)))
    with (SuspenseDemo.PostsList (Some p)).
  by rewrite (PostsList_ready _ _ _ H).
Qed.

Lemma posts_list_suspends p w :
  promises w !! p = Some Pending →
  comp_at 5 (EPostsList (Some p)) w = (Suspended p, w).
Proof.
  intros H. rewrite comp_at_eq.
  change (initial_body (EPostsList (Some p)))
    with (SuspenseDemo.PostsList (Some p)).
  by rewrite (PostsList_pending _ _ H).
Qed.

(** The body of [SuspenseDemo] performs the two lookups, in order. *)
Lemma SuspenseDemo_eq userId w :
  SuspenseDemo.SuspenseDemo userId w
  = (SuspenseDemo_return userId (getUserPromise userId w).1
       (getPostsPromise userId (getUserPromise userId w).2).1,
     (getPostsPromise userId (getUserPromise userId w).2).2).
Proof.
  unfold SuspenseDemo.SuspenseDemo, mbind, M_bind.
  destruct (getUserPromise userId w) as [up w1]. simpl.
  by destruct (getPostsPromise userId w1) as [pp w2].
Qed.

Lemma initial_body_SuspenseDemo w :
  initial_body ESuspenseDemo w
  = (Done (erase (SuspenseDemo_return 1 (getUserPromise 1 w).1
                    (getPostsPromise 1 (getUserPromise 1 w).2).1)),
     (getPostsPromise 1 (getUserPromise 1 w).2).2).
Proof.
  unfold initial_body, lift, mbind, M_bind.
  by rewrite SuspenseDemo_eq.
Qed.

Lemma suspense_demo_rendered w :
  allocated w → caches_typed w →
  let w' := (getPostsPromise 1 (getUserPromise 1 w).2).2 in
  comp_at 6 ESuspenseDemo w
  = (Done (suspense_demo (ready_user w') (ready_posts w')), w').
Proof.
  intros A T w'.
  pose proof (perform_allocated (GetUser 1) w A) as A1.
  pose proof (caches_typed_perform (GetUser 1) w A T) as T1.
  pose proof (caches_typed_perform (GetPosts 1) _ A1 T1) as [TU TP].
  simpl in A1, T1, TU, TP. fold w' in TU, TP.
  destruct (getUserPromise_cached 1 w) as (pu & Eu & Cu).
  destruct (getPostsPromise_cached 1 (getUserPromise 1 w).2)
    as (pp & Ep & Cp).
  fold w' in Cp.
  assert (userCache w' !! 1%Z = Some pu) as Cu'
    by by apply (perform_keeps_user 1 pu (GetPosts 1)).
  rewrite comp_at_eq, initial_body_SuspenseDemo. fold w'. rewrite Eu, Ep.
  change (render_node initial_body 6) with (render_with (comp_at 5)).
  unfold ready_user, ready_posts. rewrite Cu', Cp.
  destruct (TU _ _ Cu') as [du Hu]. destruct (TP _ _ Cp) as [dp Hp].
  apply timed_cases in Hu as [Hu|Hu]; rewrite Hu.
  - eapply demo_renders_user_pending; [apply spinner_rendered|].
    by apply user_card_suspends.
  - apply timed_cases in Hp as [Hp|Hp]; rewrite Hp.
    + eapply demo_renders_posts_pending; [apply spinner_rendered| |].
      * by apply user_card_rendered.
      * by apply posts_list_suspends.
    + eapply demo_renders_ready.
      * by apply user_card_rendered.
      * by apply posts_list_rendered.
Qed.

Lemma render_eq w :
  allocated w → caches_typed w →
  let w' := (getPostsPromise 1 (getUserPromise 1 w).2).2 in
  ∀ url ssrManifest,
    render url ssrManifest w
    = (Done {[ "html" :=
                 shell (suspense_demo (ready_user w') (ready_posts w')) ]},
       w').
Proof.
  intros A T w' url ssrManifest.
  unfold render, renderToString. unfold mbind, Render_bind.
  change (render_node initial_body 8) with (render_with (comp_at 7)).
  rewrite (strict_mode_renders (comp_at 7) w
             (shell (suspense_demo (ready_user w') (ready_posts w'))) w');
    [done|].
  change (comp_at 7 EApp w)
    with (render_with (comp_at 6) (erase (App.App App.initial_activeDemo)) w).
  apply shell_renders. by apply suspense_demo_rendered.
Qed.

(** C7, as the code has it.  In every realm a history of the module can
    reach, and for every route and manifest, [render] returns: the
    object [{ html }], whose markup is the app shell around the subtree
    of the demo selected by default, [suspense], each boundary completed
    if its promise for user 1 is already fulfilled and showing its
    fallback otherwise; the object has no [head].  The pass lets no time
    pass and settles no promise, and the realm it leaves is the one the
    two cache lookups for user 1 leave: unchanged when both entries are
    live, and with the timer of a fetch simulation added for each entry
    that is missing. *)
Theorem server_render_pass
    (os0 : list Op) (url : string) (ssrManifest : option string) :
  let w := run os0 initial in
  let w' := (getPostsPromise 1 (getUserPromise 1 w).2).2 in
  App.element_of App.initial_activeDemo = ESuspenseDemo
  ∧ render url ssrManifest w
    = (Done {[ "html" :=
                 shell (suspense_demo (ready_user w') (ready_posts w')) ]},
       w')
  ∧ (∀ r, (render url ssrManifest w).1 = Done r → r !! "head" = None)
  ∧ now w' = now w
  ∧ (∀ p, p < next_promise w → promises w' !! p = promises w !! p)
  ∧ (is_Some (userCache w !! 1%Z) → is_Some (postsCache w !! 1%Z) → w' = w)
  ∧ (userCache w !! 1%Z = None →
     ((now w + 1500)%N, Resolve (next_promise w) (VUser (user_of 1)))
     ∈ timers w')
  ∧ (postsCache w !! 1%Z = None →
     ∃ p, ((now w + 2000)%N, Resolve p (VPosts (posts_of 1))) ∈ timers w').
Proof.
  intros w w'.
  assert (allocated w) as A by apply run_allocated, initial_allocated.
  assert (caches_typed w) as T
    by (apply caches_typed_run;
        [apply initial_allocated|apply initial_caches_typed]).
  pose proof (render_eq w A T url ssrManifest) as E. fold w' in E.
  pose proof (perform_grows (GetUser 1) w ltac:(done))
    as (Gn1 & _ & Gp1 & Gt1 & _).
  pose proof (perform_grows (GetPosts 1) (getUserPromise 1 w).2 ltac:(done))
    as (Gn2 & _ & Gp2 & Gt2 & _).
  pose proof (perform_next_promise (GetUser 1) w) as Hle.
  simpl in Gn1, Gp1, Gt1, Gn2, Gp2, Gt2, Hle.
  fold w' in Gn2, Gp2, Gt2.
  split; [done|]. split; [done|]. split; [|split; [|split; [|split; [|split]]]].
  - intros r. rewrite E. simpl. intros [= <-].
    by rewrite lookup_singleton_ne.
  - congruence.
  - intros p Hp. rewrite Gp2 by lia. by apply Gp1.
  - intros [pu Hu] [pp Hp]. subst w'.
    rewrite (getUserPromise_hit _ _ _ Hu). simpl.
    by rewrite (getPostsPromise_hit _ _ _ Hp).
  - intros Hu. apply Gt2. rewrite (getUserPromise_miss _ _ Hu). simpl.
    apply elem_of_insert_timer. by left.
  - intros Hp.
    assert (postsCache (getUserPromise 1 w).2 !! 1%Z = None) as Hp'.
    { destruct (userCache w !! 1%Z) as [q|] eqn:Eu.
      - by rewrite (getUserPromise_hit _ _ _ Eu).
      - by rewrite (getUserPromise_miss _ _ Eu). }
    exists (next_promise (getUserPromise 1 w).2). subst w'.
    rewrite (getPostsPromise_miss _ _ Hp'). simpl. rewrite Gn1.
    apply elem_of_insert_timer. by left.
Qed.

(** The first render of a freshly loaded module calls [setTimeout]
    twice: the render pass is not free of timer-based effects. *)
Lemma first_render_starts_timers :
  timers (render "/" None initial).2 ≠ timers initial.
Proof. vm_compute. discriminate. Qed.

Example first_render :
  render "/" None initial
  = (Done {[ "html" := shell (suspense_demo None None) ]},
     run [GetUser 1; GetPosts 1] initial)
  ∧ timers (run [GetUser 1; GetPosts 1] initial)
    = [ (1500%N, Resolve 0 (VUser (user_of 1)));
        (2000%N, Resolve 1 (VPosts (posts_of 1))) ].
Proof. split; by vm_compute. Qed.

Example render_after_two_seconds :
  let w := run [GetUser 1; GetPosts 1; Advance 2000] initial in
  render "/" None w
  = (Done {[ "html" :=
               shell (suspense_demo (Some (user_of 1))
                        (Some (posts_of 1))) ]}, w).
Proof. by vm_compute. Qed.

(** C10. In every realm, [render] returns the same outcome and leaves
    the same realm whatever route and manifest it is given; and an
    object it returns has the property [html] and no other, so no
    [head]. *)
Theorem render_ignores_its_arguments
    (url1 url2 : string) (ssrManifest1 ssrManifest2 : option string)
    (w : World) :
  render url1 ssrManifest1 w = render url2 ssrManifest2 w
  ∧ ∀ r w', render url1 ssrManifest1 w = (Done r, w') →
            dom r = {["html"]} ∧ r !! "head" = None.
Proof.
  split; [done|]. intros r w'. unfold render, mbind, Render_bind.
  destruct (renderToString initial_body (StrictMode [Comp EApp]) w)
    as [[html|p|error] w'']; [|done|done].
  intros [= <- <-]. split.
  - by rewrite dom_singleton_L.
  - by rewrite lookup_singleton_ne.
Qed.

End ServerEntry.

(** ** The statements at concrete inputs *)

Lemma cache_lookup_idempotent_witness :
  forallb (λ o, negb (evicts_user 1 o))
    [GetPosts 1; Advance 2000; EvictUser 2; ChangeUser 2] = true
  ∧ ∃ p, (getUserPromise 1 initial).1 = Some p
       ∧ getUserPromise 1
           (run [GetPosts 1; Advance 2000; EvictUser 2; ChangeUser 2]
              (getUserPromise 1 initial).2)
         = (Some p,
            run [GetPosts 1; Advance 2000; EvictUser 2; ChangeUser 2]
              (getUserPromise 1 initial).2).
Proof.
  split; [reflexivity|].
  apply (cache_lookup_idempotent 1 initial
           [GetPosts 1; Advance 2000; EvictUser 2; ChangeUser 2]).
  reflexivity.
Defined.

Lemma gallery_transition_witness :
  let document := {| ViewTransitionsDemo.startViewTransition := true |} in
  let item := {| item_id := 2; item_title := "Ocean Waves";
                 item_description := ""; item_image := "" |} in
  ((∃ item', ViewTransitionsDemo.handleSelect document item
             = ViewTransitionsDemo.handleSelect document item'
             ∧ Some item = Some item')
   ∨ (ViewTransitionsDemo.handleSelect document item
      = ViewTransitionsDemo.handleBack document ∧ Some item = None))
  ∧ ViewTransitionsDemo.shown
      (ViewTransitionsDemo.react_turn
         (ViewTransitionsDemo.run_handler
            (ViewTransitionsDemo.handleSelect document item)
            (ViewTransitionsDemo.at_rest None)))
    = Some item.
Proof.
  intros document item.
  assert ((∃ item', ViewTransitionsDemo.handleSelect document item
                    = ViewTransitionsDemo.handleSelect document item'
                    ∧ Some item = Some item')
          ∨ (ViewTransitionsDemo.handleSelect document item
             = ViewTransitionsDemo.handleBack document ∧ Some item = None))
    as H by (left; exists item; split; reflexivity).
  split; [exact H|].
  exact (proj2 (gallery_transition document None
                  (ViewTransitionsDemo.handleSelect document item)
                  (Some item) H)).
Defined.

(** * Further properties of the code *)

(** ** The video player *)

Section VideoPlayerMachine.
Import ActivityDemo VideoPlayer.

Lemma tick_in_bounds st :
  (0 ≤ currentTime st ≤ 100)%Z → (0 ≤ currentTime (tick st) ≤ 100)%Z.
Proof.
  intros H. unfold tick. destruct (100 <=? currentTime st)%Z eqn:E; simpl.
  - lia.
  - apply Z.leb_gt in E. lia.
Qed.

(** X1. The playback time never leaves the range of the slider: from a
    time between 0 and 100, whatever the user clicks, wherever the slider
    is moved within its bounds and however often the interval fires, the
    time stays between 0 and 100. *)
Theorem playback_time_stays_in_range
    (st : VideoPlayerState) (evs : list Event) :
  (0 ≤ currentTime st ≤ 100)%Z →
  Forall in_range evs →
  (0 ≤ currentTime (foldl step st evs) ≤ 100)%Z.
Proof.
  revert st. induction evs as [|ev evs IH]; intros st Hst Hevs; [done|].
  apply Forall_cons in Hevs as [Hev Hevs]. simpl. apply IH; [|done].
  destruct ev as [|value|]; simpl in *; try done.
  destruct (isPlaying st); [by apply tick_in_bounds|done].
Qed.

Lemma ticks_count_up (n : nat) (t : Z) :
  (0 ≤ t)%Z → (t + Z.of_nat n ≤ 100)%Z →
  foldl step {| currentTime := t; isPlaying := true |}
    (replicate n IntervalFires)
  = {| currentTime := t + Z.of_nat n; isPlaying := true |}.
Proof.
  revert t. induction n as [|n IH]; intros t Ht Hn.
  - simpl. by rewrite Z.add_0_r.
  - cbn [replicate foldl step isPlaying]. unfold tick. simpl.
    destruct (100 <=? t)%Z eqn:E; [apply Z.leb_le in E; lia|].
    rewrite IH by lia. f_equal. lia.
Qed.

(** X2. A video playing from time [t] counts up by one per firing of the
    interval until it shows 100; the next firing rewinds it to 0 and
    pauses it, that is after exactly [101 - t] firings; paused, it ignores
    the interval. *)
Theorem playback_stops_by_itself (t : Z) (n : nat) :
  (0 ≤ t ≤ 100)%Z →
  let playing := {| currentTime := t; isPlaying := true |} in
  let stopped := {| currentTime := 0; isPlaying := false |} in
  ((Z.of_nat n ≤ 100 - t)%Z →
   foldl step playing (replicate n IntervalFires)
   = {| currentTime := t + Z.of_nat n; isPlaying := true |})
  ∧ foldl step playing (replicate (Z.to_nat (101 - t)) IntervalFires)
    = stopped
  ∧ foldl step stopped (replicate n IntervalFires) = stopped.
Proof.
  intros Ht playing stopped. split; [|split].
  - intros Hn. apply ticks_count_up; lia.
  - replace (Z.to_nat (101 - t)) with (Z.to_nat (100 - t) + 1)%nat by lia.
    rewrite replicate_add, foldl_app. unfold playing.
    rewrite ticks_count_up by lia. simpl. unfold tick. simpl.
    destruct (100 <=? t + Z.of_nat (Z.to_nat (100 - t)))%Z eqn:E; [done|].
    apply Z.leb_gt in E. lia.
  - induction n as [|n IH]; [done|]. simpl. apply IH.
Qed.

End VideoPlayerMachine.

(** ** The regions of the gallery *)

Section GalleryRegions.
Import ViewTransitionsDemo TransitionNames.

Lemma card_names item :
  names (item_card item)
  = ["image-" +:+ pretty (item_id item); "title-" +:+ pretty (item_id item)].
Proof. reflexivity. Qed.

Lemma ListView_names :
  names ListView = flat_map (λ item, names (item_card item)) items.
Proof. reflexivity. Qed.

Lemma names_of_cards_NoDup (gallery : list Item) :
  NoDup (item_id <$> gallery) →
  NoDup (flat_map (λ item, names (item_card item)) gallery).
Proof.
  induction gallery as [|item gallery IH]; intros Hid; [constructor|].
  rewrite fmap_cons in Hid. apply NoDup_cons in Hid as [Hnotin Hid].
  cbn [flat_map]. rewrite card_names.
  assert (∀ region,
            region +:+ pretty (item_id item)
            ∈ flat_map (λ item, names (item_card item)) gallery →
            region = "image-" ∨ region = "title-" → False) as Hfresh.
  { intros region Hin Hregion.
    apply list_elem_of_In, in_flat_map in Hin as (other & Hother & Hin).
    rewrite card_names in Hin. apply Hnotin.
    apply list_elem_of_fmap. exists other.
    split; [|by apply list_elem_of_In].
    destruct Hregion as [-> | ->]; simpl in Hin;
      destruct Hin as [Hin|[Hin|[]]]; try discriminate Hin;
      cbn [String.append] in Hin; injection Hin as Hin;
      change ("" +:+ ?x) with x in Hin; by apply (inj pretty) in Hin. }
  apply NoDup_cons. split.
  - intros Hin. apply elem_of_cons in Hin as [Hin|Hin]; [discriminate Hin|].
    apply (Hfresh "image-"); auto.
  - apply NoDup_cons. split; [|by apply IH].
    intros Hin. apply (Hfresh "title-"); auto.
Qed.


End GalleryRegions.

(** ** The app shell mounts conditionally *)

Section AppMounting.
Import App.
Context {S : Type} (initial_state : Element → S).

Lemma App_instances d : instances [] (App d) = [([2; slot d], element_of d)].
Proof. by destruct d. Qed.

Lemma App_reconcile fibers d :
  reconcile initial_state fibers (App d)
  = {[ [2; slot d] := (mount_or_keep initial_state fibers
                         ([2; slot d], element_of d)).2 ]}.
Proof.
  unfold reconcile. rewrite App_instances. simpl.
  by rewrite insert_empty.
Qed.

(** X4. Unlike the tab container, the app shell keeps nothing of a demo
    that is not selected.  Rendering the shell again with the same
    selection keeps the state of the selected demo; selecting another
    demo unmounts it, and selecting it again mounts it with its initial
    state, whatever its state was. *)
Theorem switching_demos_resets_state
    (fibers : gmap (list nat) (Element * S)) (d d' : Demo) :
  d ≠ d' →
  let mounted := reconcile initial_state fibers (App d) in
  reconcile initial_state mounted (App d) = mounted
  ∧ reconcile initial_state mounted (App d') !! [2; slot d] = None
  ∧ reconcile initial_state (reconcile initial_state mounted (App d')) (App d)
    = {[ [2; slot d] := (element_of d, initial_state (element_of d)) ]}.
Proof.
  intros Hne mounted. subst mounted. rewrite !App_reconcile.
  unfold mount_or_keep. simpl. split; [|split].
  - rewrite lookup_singleton_eq.
    destruct (fibers !! [2; slot d]) as [[e st]|]; simpl.
    + destruct (type_of e =? type_of (element_of d))%nat; simpl;
        by rewrite Nat.eqb_refl.
    + by rewrite Nat.eqb_refl.
  - apply lookup_singleton_ne. by destruct d, d'.
  - rewrite (lookup_singleton_ne [2; slot d'] [2; slot d]); [done|].
    by destruct d, d'.
Qed.

End AppMounting.

(** ** The singleton cache of the product fetch *)

Section ServerDataCache.
Import MoreEffects.

Lemma perform_keeps_server_data q o w :
  resets o = false →
  serverDataCache w = Some q → serverDataCache (perform o w) = Some q.
Proof.
  intros Hr Hq. destruct o as [id|id|id|id|uid| | |dt]; simpl; try done.
  - destruct (userCache w !! id) as [p|] eqn:E.
    + by rewrite (getUserPromise_hit _ _ _ E).
    + by rewrite (getUserPromise_miss _ _ E).
  - destruct (postsCache w !! id) as [p|] eqn:E.
    + by rewrite (getPostsPromise_hit _ _ _ E).
    + by rewrite (getPostsPromise_miss _ _ E).
  - by rewrite (getServerData_hit _ _ Hq).
  - destruct (advance_frame dt w) as (_ & _ & _ & E & _). by rewrite E.
Qed.

Lemma run_keeps_server_data q os w :
  forallb (λ o, negb (resets o)) os = true →
  serverDataCache w = Some q → serverDataCache (run os w) = Some q.
Proof.
  revert w. induction os as [|o os IH]; intros w Hr Hq; [done|].
  simpl in Hr. apply andb_true_iff in Hr as [Ho Hos].
  apply negb_true_iff in Ho. simpl. apply IH; [done|]. unfold exec.
  destruct (run_microtasks_frame (perform o w)) as (_ & _ & _ & E & _).
  rewrite E. by apply perform_keeps_server_data.
Qed.

Lemma getServerData_cached w :
  ∃ q, (getServerData w).1 = Some q
       ∧ serverDataCache (getServerData w).2 = Some q.
Proof.
  destruct (serverDataCache w) as [q|] eqn:E.
  - exists q. by rewrite (getServerData_hit _ _ E).
  - exists (next_promise w). by rewrite (getServerData_miss _ E).
Qed.

(** X5. The cache of the product fetch holds one promise.  At any point
    of any history, [getServerData] returns a promise, and after any
    further history in which the cache is not reset it returns the same
    promise and changes nothing.  Once the button has reset the cache,
    the next [getServerData] returns a promise whose address was unused,
    which is pending and is fulfilled with the products 800 ms later,
    whatever happens afterwards. *)
Theorem server_data_is_fetched_once_until_reset (os0 os : list Op) :
  let w := run os0 initial in
  (∃ q, (getServerData w).1 = Some q
        ∧ (forallb (λ o, negb (resets o)) os = true →
           getServerData (run os (getServerData w).2)
           = (Some q, run os (getServerData w).2)))
  ∧ (let r := getServerData (reset_cache w).2 in
     ∃ q', r.1 = Some q'
           ∧ promises w !! q' = None
           ∧ promises r.2 !! q' = Some Pending
           ∧ promises (run os r.2) !! q'
             = Some (if decide (now w + 800 ≤ now (run os r.2))%N
                     then Fulfilled (VServerData ServerComponentsDemo.products)
                     else Pending)).
Proof.
  intros w.
  assert (allocated w) as A by apply run_allocated, initial_allocated.
  split.
  - destruct (getServerData_cached w) as (q & Hq & Hc). exists q.
    split; [done|]. intros Hr. apply getServerData_hit.
    by apply run_keeps_server_data.
  - intros r. subst r.
    pose proof (perform_allocated ResetServerData w A) as A1.
    unfold perform in A1.
    assert (serverDataCache (reset_cache w).2 = None) as Hnone by done.
    rewrite (getServerData_miss _ Hnone).
    exists (next_promise w). simpl. split; [done|]. split.
    { destruct A as (A1' & _). apply A1'. lia. }
    split.
    { rewrite lookup_insert_ne by lia. by rewrite lookup_insert_eq. }
    eapply awaited_status, run_awaited.
    + pose proof (perform_allocated GetServerData _ A1) as A2.
      unfold perform in A2. by rewrite (getServerData_miss _ Hnone) in A2.
    + apply (with_server_fetch_awaited (reset_cache w).2 A1).
Qed.

End ServerDataCache.

(** ** Cached promises are never far from settled *)

Section CachesDue.
Import MoreEffects.

Lemma perform_now o w : (now w ≤ now (perform o w))%N.
Proof.
  assert ((∃ dt, o = Advance dt) ∨ ∀ dt, o ≠ Advance dt) as [[dt ->]|Hno]
    by (destruct o; eauto).
  - simpl. rewrite advance_now. lia.
  - destruct (perform_grows o w Hno) as (E & _). rewrite E. lia.
Qed.

Lemma run_microtasks_now w : now (run_microtasks w) = now w.
Proof. apply drain_now. Qed.

Lemma caches_due_perform o w :
  allocated w → caches_due w → caches_due (perform o w).
Proof.
  intros A [TU TP]. pose proof (perform_now o w) as Hnow.
  split; intros k p Hk.
  - apply user_entry_origin in Hk as [Hold|(-> & Hnone & ->)].
    + destruct (TU _ _ Hold) as (d & Hd & T). exists d.
      split; [lia|]. by apply timed_perform.
    + exists (now w + 1500)%N. split; [lia|]. simpl.
      rewrite (getUserPromise_miss _ _ Hnone).
      by apply (with_fetch_timed 1500 (VUser (user_of k)) w).
  - apply posts_entry_origin in Hk as [Hold|(-> & Hnone & ->)].
    + destruct (TP _ _ Hold) as (d & Hd & T). exists d.
      split; [lia|]. by apply timed_perform.
    + exists (now w + 2000)%N. split; [lia|]. simpl.
      rewrite (getPostsPromise_miss _ _ Hnone).
      by apply (with_fetch_timed 2000 (VPosts (posts_of k)) w).
Qed.

Lemma caches_due_run_microtasks w :
  caches_due w → caches_due (run_microtasks w).
Proof.
  intros [TU TP].
  destruct (run_microtasks_frame w) as (_ & EU & EP & _).
  rewrite <- (run_microtasks_now w) in TU, TP.
  split; intros k p Hk.
  - rewrite EU in Hk. destruct (TU _ _ Hk) as (d & Hd & T). exists d.
    split; [done|]. by apply timed_run_microtasks.
  - rewrite EP in Hk. destruct (TP _ _ Hk) as (d & Hd & T). exists d.
    split; [done|]. by apply timed_run_microtasks.
Qed.

Lemma caches_due_run os w :
  allocated w → caches_due w → caches_due (run os w).
Proof.
  revert w. induction os as [|o os IH]; intros w A T; [done|].
  simpl. apply IH; [by apply exec_allocated|].
  unfold exec. by apply caches_due_run_microtasks, caches_due_perform.
Qed.

Lemma initial_caches_due : caches_due initial.
Proof. split; intros k p; simpl; by rewrite lookup_empty. Qed.

Lemma run_now os w : (now w ≤ now (run os w))%N.
Proof.
  revert w. induction os as [|o os IH]; intros w; [done|].
  simpl. etrans; [|apply IH]. unfold exec. rewrite run_microtasks_now.
  apply perform_now.
Qed.

(** X6. Evicting an entry cancels nothing: the timers and the promises
    of the realm are as before, and the promise that was cached is still
    fulfilled with the payload of its key, at the latest one full delay
    after the eviction, whatever happens afterwards. *)
Theorem eviction_cancels_nothing (os0 os : list Op) (k : Z) (p : nat) :
  let w := run os0 initial in
  (userCache w !! k = Some p →
   let w' := (userCache_delete k w).2 in
   timers w' = timers w ∧ promises w' = promises w
   ∧ ((now w + 1500 ≤ now (run os w'))%N →
      promises (run os w') !! p = Some (Fulfilled (VUser (user_of k)))))
  ∧ (postsCache w !! k = Some p →
     let w' := (postsCache_delete k w).2 in
     timers w' = timers w ∧ promises w' = promises w
     ∧ ((now w + 2000 ≤ now (run os w'))%N →
        promises (run os w') !! p = Some (Fulfilled (VPosts (posts_of k))))).
Proof.
  intros w.
  assert (allocated w) as A by apply run_allocated, initial_allocated.
  assert (caches_due w) as [TU TP]
    by (apply caches_due_run;
        [apply initial_allocated|apply initial_caches_due]).
  split; intros Hk w'; (split; [done|split; [done|]]); intros Hnow.
  - destruct (TU _ _ Hk) as (d & Hd & T).
    assert (timed p (VUser (user_of k)) d w') as T' by exact T.
    pose proof (perform_allocated (EvictUser k) w A) as A'.
    apply (run_timed _ _ _ os _ A'), timed_status in T'.
    etrans; [exact T'|]. case_decide as Hc; [done|].
    exfalso. apply Hc. etrans; [exact Hd|exact Hnow].
  - destruct (TP _ _ Hk) as (d & Hd & T).
    assert (timed p (VPosts (posts_of k)) d w') as T' by exact T.
    pose proof (perform_allocated (EvictPosts k) w A) as A'.
    apply (run_timed _ _ _ os _ A'), timed_status in T'.
    etrans; [exact T'|]. case_decide as Hc; [done|].
    exfalso. apply Hc. etrans; [exact Hd|exact Hnow].
Qed.

End CachesDue.

(** ** A mounted SuspenseDemo *)

Section MountedSuspenseDemo.
Import MoreEffects SuspenseSession.

Lemma render_body_eq k w :
  render_body k w = (getPostsPromise k (getUserPromise k w).2).2.
Proof. unfold render_body. by rewrite SuspenseDemo_eq. Qed.

Lemma render_body_hit k pu pp w :
  userCache w !! k = Some pu → postsCache w !! k = Some pp →
  render_body k w = w.
Proof.
  intros Hu Hp. rewrite render_body_eq, (getUserPromise_hit _ _ _ Hu).
  simpl. by rewrite (getPostsPromise_hit _ _ _ Hp).
Qed.

Lemma render_body_miss k w :
  userCache w !! k = None → postsCache w !! k = None →
  render_body k w
  = set_postsCache <[k := S (next_promise w)]>
      (with_fetch 2000 (VPosts (posts_of k))
         (set_userCache <[k := next_promise w]>
            (with_fetch 1500 (VUser (user_of k)) w))).
Proof.
  intros Hu Hp. rewrite render_body_eq, (getUserPromise_miss _ _ Hu).
  simpl. by rewrite getPostsPromise_miss.
Qed.

(** X7. A click on the button always shows the loading state again.  At
    any point of any history and whatever the current user is, after the
    click and the render that follows it the user is the next one, both
    caches hold for it promises whose addresses were unused before, the
    user card suspends on its promise, and the two promises are fulfilled
    with the payloads of the new user 1500 ms and 2000 ms after the
    click, whatever happens afterwards. *)
Theorem click_loads_the_next_user (os0 os : list Op) (current : Z) :
  let w := run os0 initial in
  let s := step {| userId := current; realm := w |} Click in
  let w' := run os (realm s) in
  userId s = (current + 1)%Z
  ∧ ∃ pu pp,
      userCache (realm s) !! userId s = Some pu
      ∧ postsCache (realm s) !! userId s = Some pp
      ∧ promises w !! pu = None ∧ promises w !! pp = None
      ∧ SuspenseDemo.UserCard (Some pu) (realm s) = (Suspended pu, realm s)
      ∧ promises w' !! pu
        = Some (if decide (now w + 1500 ≤ now w')%N
                then Fulfilled (VUser (user_of (current + 1))) else Pending)
      ∧ promises w' !! pp
        = Some (if decide (now w + 2000 ≤ now w')%N
                then Fulfilled (VPosts (posts_of (current + 1)))
                else Pending).
Proof.
  intros w s w'. subst w' s. cbn [step userId realm]. simpl.
  set (n := (current + 1)%Z).
  set (w1 := set_postsCache (delete n) (set_userCache (delete n) w)).
  assert (allocated w) as A by apply run_allocated, initial_allocated.
  assert (allocated w1) as A1
    by apply (perform_allocated (ChangeUser current) w A).
  assert (userCache w1 !! n = None) as Hu by apply lookup_delete_eq.
  assert (postsCache w1 !! n = None) as Hp by apply lookup_delete_eq.
  split; [done|]. rewrite (render_body_miss _ _ Hu Hp).
  set (w2 := set_userCache <[n := next_promise w1]>
               (with_fetch 1500 (VUser (user_of n)) w1)).
  assert (allocated w2) as A2.
  { pose proof (perform_allocated (GetUser n) w1 A1) as H.
    unfold perform in H. by rewrite (getUserPromise_miss _ _ Hu) in H. }
  set (w3 := set_postsCache <[n := S (next_promise w1)]>
               (with_fetch 2000 (VPosts (posts_of n)) w2)).
  assert (allocated w3) as A3.
  { pose proof (perform_allocated (GetPosts n) w2 A2) as H.
    unfold perform in H. by rewrite getPostsPromise_miss in H. }
  assert (timed (next_promise w1) (VUser (user_of n)) (now w + 1500) w3)
    as Tu.
  { apply (timed_grows _ _ _ w2 w3 A2).
    - apply (with_fetch_grows 2000 (VPosts (posts_of n)) w2).
    - by apply (with_fetch_timed 1500 (VUser (user_of n)) w1). }
  assert (timed (S (next_promise w1)) (VPosts (posts_of n)) (now w + 2000) w3)
    as Tp by by apply (with_fetch_timed 2000 (VPosts (posts_of n)) w2).
  exists (next_promise w1), (S (next_promise w1)).
  destruct A as (Anone & _).
  split; [simpl; by rewrite lookup_insert_eq|].
  split; [simpl; by rewrite lookup_insert_eq|].
  split; [apply Anone; simpl; lia|]. split; [apply Anone; simpl; lia|].
  split.
  - apply UserCard_pending. simpl.
    rewrite lookup_insert_ne by lia. by rewrite lookup_insert_eq.
  - split.
    + by apply timed_status, run_timed.
    + by apply timed_status, run_timed.
Qed.

Lemma mount_holds_users : holds_users (mount initial) 0.
Proof.
  unfold mount. rewrite render_body_miss by done.
  unfold holds_users. cbn [userId realm]. simpl.
  unfold initial_userId.
  split; [done|]. split; [|split; [|split]].
  - intros k. rewrite lookup_insert_is_Some, lookup_empty. split.
    + intros [<-|[_ [? ?]]]; [lia|done].
    + intros ?. left. lia.
  - intros k. rewrite lookup_insert_is_Some, lookup_empty. split.
    + intros [<-|[_ [? ?]]]; [lia|done].
    + intros ?. left. lia.
  - by rewrite insert_empty, map_size_singleton.
  - by rewrite insert_empty, map_size_singleton.
Qed.

Lemma step_holds_users s clicks ev :
  holds_users s clicks →
  holds_users (step s ev) (if is_click ev then Datatypes.S clicks else clicks).
Proof.
  intros (Hid & Hu & Hp & Su & Sp). destruct s as [uid w]. simpl in *.
  destruct ev as [| |dt]; cbn [step is_click userId realm].
  - simpl.
    assert (userCache w !! (uid + 1)%Z = None) as Nu.
    { apply eq_None_not_Some. rewrite Hu. lia. }
    assert (postsCache w !! (uid + 1)%Z = None) as Np.
    { apply eq_None_not_Some. rewrite Hp. lia. }
    rewrite render_body_miss by (simpl; by rewrite lookup_delete_eq).
    unfold holds_users. cbn [userId realm]. simpl.
    rewrite !delete_id by done.
    split; [lia|]. split; [|split; [|split]].
    + intros k. rewrite lookup_insert_is_Some, Hu. lia.
    + intros k. rewrite lookup_insert_is_Some, Hp. lia.
    + by rewrite map_size_insert_None, Su.
    + by rewrite map_size_insert_None, Sp.
  - destruct (proj2 (Hu uid) ltac:(lia)) as [pu Eu].
    destruct (proj2 (Hp uid) ltac:(lia)) as [pp Ep].
    by rewrite (render_body_hit _ _ _ _ Eu Ep).
  - destruct (advance_frame dt w) as (_ & Eu & Ep & _).
    unfold holds_users. cbn [userId realm]. by rewrite Eu, Ep.
Qed.

(** X8. While the demo stays mounted in a freshly loaded module, its
    caches only grow.  After any sequence of clicks, renders and waits,
    the current user is 1 plus the number of clicks, both caches hold
    exactly the users from 1 to the current one, and the eviction that
    the next click performs finds nothing to remove. *)
Theorem caches_only_grow_while_mounted (evs : list Event) :
  let s := foldl step (mount initial) evs in
  let clicks := length (List.filter is_click evs) in
  userId s = (1 + Z.of_nat clicks)%Z
  ∧ (∀ k, is_Some (userCache (realm s) !! k) ↔ (1 ≤ k ≤ userId s)%Z)
  ∧ (∀ k, is_Some (postsCache (realm s) !! k) ↔ (1 ≤ k ≤ userId s)%Z)
  ∧ size (userCache (realm s)) = Datatypes.S clicks
  ∧ size (postsCache (realm s)) = Datatypes.S clicks
  ∧ (userCache_delete (userId s + 1) (realm s)).1 = false
  ∧ (postsCache_delete (userId s + 1) (realm s)).1 = false.
Proof.
  intros s clicks.
  assert (holds_users s clicks) as H.
  { subst s clicks. induction evs as [|ev evs IH] using rev_ind.
    - apply mount_holds_users.
    - rewrite foldl_app, List.filter_app, length_app. simpl.
      apply (step_holds_users _ _ ev) in IH.
      destruct ev; simpl in *; by rewrite ?Nat.add_0_r, ?Nat.add_1_r. }
  destruct H as (Hid & Hu & Hp & Su & Sp).
  repeat (split; [done|]). split.
  - simpl. apply bool_decide_eq_false. rewrite Hu. lia.
  - simpl. apply bool_decide_eq_false. rewrite Hp. lia.
Qed.

End MountedSuspenseDemo.

(** ** A second server render *)

Section WarmRender.
Import MoreEffects EntryServer ServerMarkup.

Lemma caches_due_ready w pu pp :
  allocated w → caches_due w →
  userCache w !! 1%Z = Some pu → postsCache w !! 1%Z = Some pp →
  ∀ os,
    forallb (λ o, negb (evicts_user 1 o)) os = true →
    forallb (λ o, negb (evicts_posts 1 o)) os = true →
    (now w + 2000 ≤ now (run os w))%N →
    ready_user (run os w) = Some (user_of 1)
    ∧ ready_posts (run os w) = Some (posts_of 1).
Proof.
  intros A [TU TP] Cu Cp os Eu Ep Hnow.
  destruct (TU _ _ Cu) as (du & Hdu & Tu).
  destruct (TP _ _ Cp) as (dp & Hdp & Tp).
  unfold ready_user, ready_posts.
  rewrite (run_keeps_user _ _ _ _ Eu Cu), (run_keeps_posts _ _ _ _ Ep Cp).
  rewrite (timed_status _ _ _ _ (run_timed _ _ _ os _ A Tu)).
  rewrite (timed_status _ _ _ _ (run_timed _ _ _ os _ A Tp)).
  rewrite !decide_True by lia. done.
Qed.

(** X9. A second server render is complete and starts nothing.  Once a
    render has run in a realm, and 2000 ms have passed in which user 1
    was not evicted, every later render, for any route and manifest,
    returns the shell around the demo with the card of user 1 and the
    three posts, and leaves the realm exactly as it found it: no promise
    is created and no timer is started. *)
Theorem warm_render_is_complete_and_silent
    (os0 os : list Op) (url url' : string) (m m' : option string) :
  let w1 := (render url m (run os0 initial)).2 in
  let w2 := run os w1 in
  forallb (λ o, negb (evicts_user 1 o)) os = true →
  forallb (λ o, negb (evicts_posts 1 o)) os = true →
  (now w1 + 2000 ≤ now w2)%N →
  render url' m' w2
  = (Done {[ "html" := shell (suspense_demo (Some (user_of 1))
                                             (Some (posts_of 1))) ]},
     w2).
Proof.
  intros w1 w2 Eu Ep Hnow. set (w0 := run os0 initial) in *.
  assert (allocated w0) as A0 by apply run_allocated, initial_allocated.
  assert (caches_typed w0) as T0
    by (apply caches_typed_run;
        [apply initial_allocated|apply initial_caches_typed]).
  assert (caches_due w0) as D0
    by (apply caches_due_run;
        [apply initial_allocated|apply initial_caches_due]).
  assert (w1 = perform (GetPosts 1) (perform (GetUser 1) w0)) as E1.
  { unfold w1. by rewrite (render_eq w0 A0 T0 url m). }
  pose proof (perform_allocated (GetUser 1) w0 A0) as A01.
  assert (allocated w1) as A1 by (rewrite E1; by apply perform_allocated).
  assert (caches_typed w1) as T1.
  { rewrite E1. apply caches_typed_perform; [done|].
    by apply caches_typed_perform. }
  assert (caches_due w1) as D1.
  { rewrite E1. apply caches_due_perform; [done|].
    by apply caches_due_perform. }
  destruct (getUserPromise_cached 1 w0) as (pu & _ & Cu).
  destruct (getPostsPromise_cached 1 (getUserPromise 1 w0).2)
    as (pp & _ & Cp).
  assert (userCache w1 !! 1%Z = Some pu) as Cu1.
  { rewrite E1. by apply (perform_keeps_user 1 pu (GetPosts 1)). }
  assert (postsCache w1 !! 1%Z = Some pp) as Cp1 by by rewrite E1.
  destruct (caches_due_ready w1 pu pp A1 D1 Cu1 Cp1 os Eu Ep Hnow)
    as [Ru Rp].
  fold w2 in Ru, Rp.
  assert (allocated w2) as A2 by by apply run_allocated.
  assert (caches_typed w2) as T2 by by apply caches_typed_run.
  pose proof (run_keeps_user _ _ _ _ Eu Cu1) as Cu2.
  pose proof (run_keeps_posts _ _ _ _ Ep Cp1) as Cp2.
  fold w2 in Cu2, Cp2.
  rewrite (render_eq w2 A2 T2 url' m').
  rewrite (getUserPromise_hit _ _ _ Cu2). simpl.
  rewrite (getPostsPromise_hit _ _ _ Cp2). simpl.
  by rewrite Ru, Rp.
Qed.

End WarmRender.

(** ** The SSR middleware *)

Section SsrMiddleware.
Import EntryServer ServerMarkup Server.

Lemma append_cons x (a b : string) : String x a +:+ b = String x (a +:+ b).
Proof. reflexivity. Qed.

Lemma append_nil (a : string) : "" +:+ a = a.
Proof. reflexivity. Qed.

Lemma append_assoc (a b c : string) : (a +:+ b) +:+ c = a +:+ b +:+ c.
Proof.
  induction a as [|x a IH]; [done|]. rewrite !append_cons. by rewrite IH.
Qed.

Lemma strip_prefix_Some p s r : strip_prefix p s = Some r → s = p +:+ r.
Proof.
  revert s. induction p as [|a p IH]; intros s H; simpl in *.
  - by injection H as ->.
  - destruct s as [|b s]; [done|].
    destruct (Ascii.eqb_spec a b) as [->|]; [|done].
    rewrite append_cons. by rewrite <- (IH _ H).
Qed.

(** The pattern stands between the two texts [split_at_first] returns. *)
Lemma split_at_first_Some p s a b :
  split_at_first p s = Some (a, b) → s = a +:+ p +:+ b.
Proof.
  revert a. induction s as [|c s IH]; intros a H; simpl in H.
  - destruct (strip_prefix p "") as [r|] eqn:E; [|done].
    injection H as <- <-. rewrite append_nil. by apply strip_prefix_Some.
  - destruct (strip_prefix p (String c s)) as [r|] eqn:E.
    + injection H as <- <-. rewrite append_nil. by apply strip_prefix_Some.
    + destruct (split_at_first p s) as [[a' b']|] eqn:E'; [|done].
      injection H as <- <-. rewrite append_cons. by rewrite <- (IH a').
Qed.

(** A plain replacement stands for itself. *)
Lemma substitution_plain matched before after r :
  plain r = true → substitution matched before after r = r.
Proof.
  induction r as [|c r IH]; [done|]. simpl.
  destruct (Ascii.eqb c _) eqn:Ec.
  - apply Ascii.eqb_eq in Ec as ->. destruct r as [|d r']; [done|].
    intros [Hd Hr]%andb_true_iff. apply negb_true_iff in Hd.
    unfold special in Hd.
    apply orb_false_iff in Hd as [Hd H4].
    apply orb_false_iff in Hd as [Hd H3].
    apply orb_false_iff in Hd as [H1 H2].
    rewrite H1, H2, H3, H4. by rewrite (IH Hr).
  - intros Hr. by rewrite (IH Hr).
Qed.

Lemma replace_plain p r s a b :
  split_at_first p s = Some (a, b) → plain r = true →
  replace p r s = a +:+ r +:+ b.
Proof.
  intros E Hr. unfold replace. by rewrite E, substitution_plain.
Qed.

Lemma replace_empty p s a b :
  split_at_first p s = Some (a, b) → replace p "" s = a +:+ b.
Proof. intros E. by rewrite (replace_plain _ _ _ _ _ E). Qed.

Context (write : list Html → string) (stack : string → string).

Lemma handle_eq os base template ssrManifest originalUrl :
  let w := run os initial in
  let w' := (getPostsPromise 1 (getUserPromise 1 w).2).2 in
  handle write stack base template ssrManifest originalUrl w
  = ({| status := 200;
        headers := [("Content-Type", "text/html")];
        body :=
          replace "<!--app-html-->"
            (write (shell (suspense_demo (ready_user w') (ready_posts w'))))
            (replace "<!--app-head-->" "" template) |},
     w').
Proof.
  intros w w'. unfold handle.
  assert (allocated w) as A by apply run_allocated, initial_allocated.
  assert (caches_typed w) as T
    by (apply caches_typed_run;
        [apply initial_allocated|apply initial_caches_typed]).
  rewrite (render_eq w A T). fold w'.
  unfold inject, property.
  rewrite lookup_singleton_eq, lookup_singleton_ne by done. done.
Qed.


(** X11. The markup is inserted verbatim into a well-formed template.
    When the template has a head placeholder and, once that is removed,
    an html placeholder, and the string React writes contains no
    replacement pattern, the page is the text before the html
    placeholder, the markup as written, and the text after it. *)
Theorem markup_is_inserted_verbatim
    (os : list Op) (base template : string) (ssrManifest : option string)
    (originalUrl a t b c : string) :
  let w := run os initial in
  let r := handle write stack base template ssrManifest originalUrl w in
  let markup :=
    write (shell (suspense_demo (ready_user r.2) (ready_posts r.2))) in
  split_at_first "<!--app-head-->" template = Some (a, t) →
  split_at_first "<!--app-html-->" (a +:+ t) = Some (b, c) →
  plain markup = true →
  template = a +:+ "<!--app-head-->" +:+ t
  ∧ a +:+ t = b +:+ "<!--app-html-->" +:+ c
  ∧ body r.1 = b +:+ markup +:+ c.
Proof.
  intros w r markup Hhead Hhtml Hplain. subst markup r w.
  revert Hplain. rewrite handle_eq. simpl. intros Hplain.
  split; [by apply split_at_first_Some|].
  split; [by apply split_at_first_Some|].
  rewrite (replace_empty _ _ _ _ Hhead).
  by apply replace_plain.
Qed.

End SsrMiddleware.

(** ** Navigating the gallery *)

Section GalleryNavigation.
Import ViewTransitionsDemo Navigation.

Lemma act_eq document s a :
  requested s = [] →
  act document s a
  = {| shown := target a;
       requested := [];
       captured :=
         captured s
         ++ (if startViewTransition document
             then [(shown s, target a)] else []) |}.
Proof.
  destruct s as [sh rq cp], document as [[|]], a as [item|];
    simpl; intros ->; unfold act; simpl; unfold render_requested; simpl;
    by rewrite ?app_nil_r.
Qed.

Lemma navigation_from document s actions :
  requested s = [] →
  let s' := foldl (act document) s actions in
  shown s' = default (shown s) (last (target <$> actions))
  ∧ requested s' = []
  ∧ captured s'
    = captured s
      ++ (if startViewTransition document
          then transitions (shown s) actions else []).
Proof.
  revert s. induction actions as [|a actions IH]; intros s Hs.
  - simpl. split; [done|]. split; [done|].
    destruct (startViewTransition document); by rewrite app_nil_r.
  - cbn [foldl]. rewrite (act_eq document s a Hs).
    set (s1 := {| shown := target a |}).
    destruct (IH s1 eq_refl) as (Hshown & Hreq & Hcap).
    split; [|split; [done|]].
    + rewrite Hshown, fmap_cons, last_cons. simpl.
      by destruct (last (target <$> actions)).
    + rewrite Hcap. simpl.
      destruct (startViewTransition document); simpl;
        by rewrite <- ?app_assoc, ?app_nil_r.
Qed.

(** X12. The gallery shows what was clicked last, with or without view
    transitions.  After any sequence of clicks on cards and on the back
    button, each followed by React's turn, the screen shows the target
    of the last click (the initial selection if there was none) and no
    update is left pending, in a browser with [startViewTransition] and
    in one without.  With it, the browser has seen one transition per
    click, each from the view the click found to the view it asked for,
    so every transition starts where the previous one ended; without
    it, none. *)
Theorem navigation_shows_the_last_choice
    (document : Document) (selectedItem : option Item)
    (actions : list Action) :
  let s := foldl (act document) (at_rest selectedItem) actions in
  shown s = default selectedItem (last (target <$> actions))
  ∧ requested s = []
  ∧ captured s
    = (if startViewTransition document
       then transitions selectedItem actions else []).
Proof. by apply (navigation_from document (at_rest selectedItem)). Qed.

End GalleryNavigation.

(** ** The further properties at concrete inputs *)

Lemma playback_time_stays_in_range_witness :
  (0 ≤ ActivityDemo.currentTime
         (foldl VideoPlayer.step ActivityDemo.initial_video
            [VideoPlayer.ClickPlayPause; VideoPlayer.IntervalFires;
             VideoPlayer.Slide 100; VideoPlayer.IntervalFires;
             VideoPlayer.IntervalFires]) ≤ 100)%Z.
Proof.
  apply (playback_time_stays_in_range ActivityDemo.initial_video).
  - simpl. lia.
  - repeat (apply List.Forall_cons; [simpl; first [exact I|lia]|]).
    apply List.Forall_nil.
Defined.

Lemma playback_stops_by_itself_witness :
  foldl VideoPlayer.step
    {| ActivityDemo.currentTime := 98; ActivityDemo.isPlaying := true |}
    (replicate (Z.to_nat (101 - 98)) VideoPlayer.IntervalFires)
  = {| ActivityDemo.currentTime := 0; ActivityDemo.isPlaying := false |}.
Proof.
  apply (playback_stops_by_itself 98 2). lia.
Defined.


Lemma switching_demos_resets_state_witness :
  App.activity ≠ App.suspense
  ∧ reconcile (λ _, 0%nat)
      (reconcile (λ _, 0%nat) ∅ (App.App App.activity))
      (App.App App.suspense)
    !! [2; App.slot App.activity] = None.
Proof.
  assert (App.activity ≠ App.suspense) as H by discriminate.
  split; [exact H|].
  apply (switching_demos_resets_state (λ _, 0%nat) ∅ _ _ H).
Defined.

Lemma warm_render_is_complete_and_silent_witness :
  EntryServer.render "/about" None
    (run [Advance 2000] (EntryServer.render "/" None initial).2)
  = (Done {[ "html" :=
               ServerMarkup.shell
                 (ServerMarkup.suspense_demo (Some (user_of 1))
                    (Some (posts_of 1))) ]},
     run [Advance 2000] (EntryServer.render "/" None initial).2).
Proof.
  apply (warm_render_is_complete_and_silent [] [Advance 2000]).
  - reflexivity.
  - reflexivity.
  - apply N.leb_le. vm_compute. reflexivity.
Defined.

Lemma markup_is_inserted_verbatim_witness :
  Server.body
    (Server.handle (λ _, "<main><!--$--></main>") (λ e, e) "/"
       "<head><!--app-head--></head><div id=root><!--app-html--></div>"
       None "/about" initial).1
  = "<head></head><div id=root>" +:+ "<main><!--$--></main>" +:+ "</div>".
Proof.
  apply (markup_is_inserted_verbatim (λ _, "<main><!--$--></main>")
           (λ e, e) [] "/"
           "<head><!--app-head--></head><div id=root><!--app-html--></div>"
           None "/about" "<head>"
           "</head><div id=root><!--app-html--></div>"
           "<head></head><div id=root>" "</div>");
    vm_compute; reflexivity.
Defined.

Lemma server_data_is_fetched_once_until_reset_witness :
  ∃ q, (getServerData initial).1 = Some q
       ∧ getServerData
           (run [Advance 800; GetUser 1] (getServerData initial).2)
         = (Some q, run [Advance 800; GetUser 1] (getServerData initial).2).
Proof.
  destruct (proj1 (server_data_is_fetched_once_until_reset
                     [] [Advance 800; GetUser 1]))
    as (q & Hq & Hsame).
  exists q. split; [exact Hq|]. apply Hsame. reflexivity.
Defined.

Lemma eviction_cancels_nothing_witness :
  promises
    (run [Advance 1500] (userCache_delete 1 (run [GetUser 1] initial)).2)
  !! 0%nat
  = Some (Fulfilled (VUser (user_of 1))).
Proof.
  apply (proj1 (eviction_cancels_nothing [GetUser 1] [Advance 1500] 1 0)).
  - reflexivity.
  - apply N.leb_le. vm_compute. reflexivity.
Defined.

